(** * Verification of the Pokemon cache pipeline and its query layer

    A shallow embedding of [src/logic.py] (query and formatting layer) and
    [src/generate_cache.py] (cache-building pipeline), followed by the
    properties of the specification that concern them.

    Conventions of the embedding.
    - JSON objects with a fixed set of keys are records.  A key read with
      [d[k]] is a plain field; a key read with [d.get(k)] whose value may be
      missing or [null] is an [option] field.
    - Python dicts used as label maps (slug to localized label) are
      [gmap string string].  The entity cache is a [gmap] where it is only
      looked up ([get_evolution_tree]) and an association list where its
      [values()] are iterated in insertion order
      ([get_pokemon_by_name_or_id]).
    - The network is a session of endpoints that answer each request in
      any way; what a run requests, prints and sleeps is kept as a list of
      events.
    - Python exceptions are the constructors of [exn]; code that can raise
      returns a [result].
    - [str(n)] on an integer is stdpp's [pretty]; the built-ins [str.lower]
      and [str.strip] are parameters of the functions that call them. *)

From Stdlib Require Import ZArith String List Bool Lia.
From Stdlib Require Import Sorting.Sorted Sorting.Permutation.
From stdpp Require Import base gmap strings list pretty.
Import ListNotations.

Open Scope string_scope.
Open Scope Z_scope.

(* ===================================================================== *)
(** ** Python values and built-ins *)
(* ===================================================================== *)

(** Exceptions the modelled code can raise. *)
Inductive exn : Type :=
  | AttributeError   (* attribute access on None *)
  | KeyError.        (* d[k] on a dict without k *)

Inductive result (A : Type) : Type :=
  | Ok (a : A)
  | Raise (e : exn).
Arguments Ok {A} a.
Arguments Raise {A} e.

(** Truth value of a string, an integer and a nullable value. *)
Definition truthy_str (s : string) : bool := negb (String.eqb s "").
Definition truthy_int (z : Z) : bool := negb (z =? 0).
Definition truthy {A : Type} (t : A -> bool) (o : option A) : bool :=
  match o with
  | Some a => t a
  | None => false
  end.

(** [a or b] on nullable strings. *)
Definition or_str (a b : option string) : option string :=
  if truthy truthy_str a then a else b.

(** [str(x)] as an f-string placeholder renders it, for a nullable integer
    and a nullable string. *)
Definition str_int (o : option Z) : string :=
  match o with
  | Some z => pretty z
  | None => "None"
  end.
Definition str_str (o : option string) : string :=
  match o with
  | Some s => s
  | None => "None"
  end.

(** [str.lower] and [str.strip] as they act on ASCII letters and blanks;
    the functions below take the built-ins as parameters and the examples
    run them with these. *)
Definition ascii_lower_char (c : Ascii.ascii) : Ascii.ascii :=
  let n := Ascii.nat_of_ascii c in
  if ((65 <=? n) && (n <=? 90))%nat then Ascii.ascii_of_nat (n + 32) else c.

Fixpoint ascii_lower (s : string) : string :=
  match s with
  | EmptyString => EmptyString
  | String c rest => String (ascii_lower_char c) (ascii_lower rest)
  end.

Definition is_blank (c : Ascii.ascii) : bool :=
  let n := Ascii.nat_of_ascii c in
  ((n =? 32) || ((9 <=? n) && (n <=? 13)))%nat.

Fixpoint lstrip (s : string) : string :=
  match s with
  | EmptyString => EmptyString
  | String c rest => if is_blank c then lstrip rest else s
  end.

Fixpoint rstrip (s : string) : string :=
  match s with
  | EmptyString => EmptyString
  | String c rest =>
      match rstrip rest with
      | EmptyString => if is_blank c then EmptyString else String c EmptyString
      | kept => String c kept
      end
  end.

Definition ascii_strip (s : string) : string := rstrip (lstrip s).

(** [sep.join(texts)] *)
Definition join (sep : string) (texts : list string) : string :=
  String.concat sep texts.

(* ===================================================================== *)
(** ** Data model *)
(* ===================================================================== *)

(** One evolution-detail record of the upstream evolution chain. *)
Record evolution_detail : Type := {
  trigger : option string;       (* d["trigger"]["name"]; None: key missing *)
  min_level : option Z;          (* d["min_level"] *)
  item : option string;          (* d["item"]["name"]; None: item is null *)
  min_happiness : option Z;      (* d["min_happiness"] *)
  time_of_day : option string;   (* d["time_of_day"] *)
  known_move : option string     (* d["known_move"]["name"]; None: null *)
}.

(** A node of the raw evolution-chain tree. *)
#[local] Set Warnings "-register-all".
Inductive chain_node : Type :=
  ChainNode {
    species : option string;                     (* node["species"]["name"]; None: key missing *)
    evolution_details : list evolution_detail;   (* [] when the key is missing *)
    evolves_to : list chain_node                 (* [] when the key is missing *)
  }.

(** The empty dict [{}], read as a node. *)
Definition empty_node : chain_node :=
  {| species := None; evolution_details := []; evolves_to := [] |}.

(** The evolution-chain document; [chain] is [None] when the document has
    no "chain" key, and [other_keys] names the keys it has besides. *)
Record chain_doc : Type := {
  chain : option chain_node;
  other_keys : list string
}.

(** Truth value of the document: a dict is false when it has no key. *)
Definition truthy_chain_doc (d : chain_doc) : bool :=
  match chain d, other_keys d with
  | None, [] => false
  | _, _ => true
  end.

(** A form record, as [extract_form_info] builds it. *)
Record form : Type := {
  f_name_en : string;               (* "name_en" *)
  f_name_ja : string;               (* "name_ja" *)
  f_img : option string;            (* "img" *)
  f_form_label : string;            (* "form_label" *)
  f_is_mega : bool;                 (* "is_mega" *)
  f_evolution_condition : string    (* "evolution_condition" *)
}.

(** An entity record of the cache, as [fetch_pokemon] builds it. *)
Record entry : Type := {
  e_id : Z;                          (* "図鑑番号" *)
  e_name_en : string;                (* "英語名" *)
  e_name_ja : string;                (* "日本語名" *)
  e_types : list string;             (* "タイプ" *)
  e_img : option string;             (* "画像" *)
  e_chain : option chain_doc;        (* "進化チェーン", null when not fetched *)
  e_forms : list form                (* "フォルム一覧" *)
}.

(** The display entry [_make_entry] returns. *)
Record display_entry : Type := {
  d_id : Z;                          (* "id" *)
  d_name_en : string;                (* "name_en" *)
  d_name : string;                   (* "name" *)
  d_types : list string;             (* "types" *)
  d_img : option string;             (* "img" *)
  d_evolution_chain : option chain_doc;   (* "evolution_chain" *)
  d_forms : list form                (* "フォルム一覧" *)
}.

(** One element of the sequence [get_evolution_tree] returns. *)
Record tree_item : Type := {
  t_name : string;                   (* "name" *)
  t_name_en : string;                (* "name_en" *)
  t_id : Z;                          (* "id" *)
  t_img : option string;             (* "img" *)
  t_types : list string;             (* "types" *)
  t_condition : string               (* "condition" *)
}.

(* ===================================================================== *)
(** ** logic.py *)
(* ===================================================================== *)

(** [safe_translate(name, mapping)] = [mapping.get(name, name)] *)
Definition safe_translate (name : string) (mapping : gmap string string) : string :=
  default name (mapping !! name).

(** [translate_types(types, lang, type_map)] *)
Definition translate_types (types : list string) (lang : string)
    (type_map : gmap string string) : list string :=
  if String.eqb lang "日本語"
  then map (fun t => safe_translate t type_map) types
  else types.

Section Logic.

(** The tables the memoized loaders return: [load_item_name_map()] and
    [load_type_name_map()]. *)
Variable item_name_map : gmap string string.
Variable type_name_map : gmap string string.

(** The built-ins [str.lower] and [str.strip]. *)
Variable lower : string -> string.
Variable strip : string -> string.

(** [_make_entry(entry, lang)] *)
Definition _make_entry (e : entry) (lang : string) : display_entry :=
  let translated_types := translate_types (e_types e) lang type_name_map in
  {| d_id := e_id e;
     d_name_en := e_name_en e;
     d_name := if String.eqb lang "日本語" then e_name_ja e else e_name_en e;
     d_types := translated_types;
     d_img := e_img e;
     d_evolution_chain := e_chain e;
     d_forms := e_forms e |}.

(** The loop of [get_pokemon_by_name_or_id] over [cache.values()], with
    [q] the trimmed and lower-cased query. *)
Fixpoint lookup_values (q : string) (lang : string) (values : list entry)
    : option display_entry :=
  match values with
  | [] => None
  | e :: rest =>
      if String.eqb (pretty (e_id e)) q || String.eqb (lower (e_name_en e)) q
      then Some (_make_entry e lang)
      else if String.eqb lang "日本語" && String.eqb (lower (e_name_ja e)) q
      then Some (_make_entry e lang)
      else lookup_values q lang rest
  end.

(** [get_pokemon_by_name_or_id(query, lang, cache)]; the cache is the dict
    in insertion order. *)
Definition get_pokemon_by_name_or_id (query : string) (lang : string)
    (cache : list (string * entry)) : option display_entry :=
  let q := lower (strip query) in
  lookup_values q lang (map snd cache).

(** The body of the loop [for d in details] of
    [format_evolution_conditions]: the text appended for one record. *)
Definition condition_text (d : evolution_detail) (lang : string) : string :=
  let trig := default "" (trigger d) in
  let lvl := min_level d in
  let itm := item d in
  let hp := min_happiness d in
  let tm := time_of_day d in
  let mv := known_move d in
  if String.eqb lang "日本語" then
    if String.eqb trig "level-up" && truthy truthy_int lvl then
      str_int lvl ++ "レベルで進化"
    else if String.eqb trig "use-item" && truthy truthy_str itm then
      safe_translate (str_str itm) item_name_map ++ "を使う"
    else if truthy truthy_int hp then
      "なつき度が高い状態で進化"
    else if truthy truthy_str mv then
      str_str mv ++ "を覚えていると進化"
    else if truthy truthy_str tm then
      str_str tm ++ "に進化"
    else
      "特殊な条件で進化"
  else
    if String.eqb trig "level-up" && truthy truthy_int lvl then
      "Evolves at level " ++ str_int lvl
    else if String.eqb trig "use-item" && truthy truthy_str itm then
      "Use " ++ str_str itm ++ " to evolve"
    else if truthy truthy_int hp then
      "High friendship required"
    else if truthy truthy_str mv then
      "Knows move " ++ str_str mv
    else if truthy truthy_str tm then
      "Evolves during " ++ str_str tm
    else
      "Special condition".

(** [format_evolution_conditions(details, lang)]; [details] is [None] for
    a Python [None]. *)
Definition format_evolution_conditions (details : option (list evolution_detail))
    (lang : string) : string :=
  match details with
  | None | Some [] =>
      if String.eqb lang "日本語" then "条件不明" else "Unknown condition"
  | Some ds =>
      let texts := map (fun d => condition_text d lang) ds in
      if String.eqb lang "日本語" then join "、" texts else join "; " texts
  end.

(** The inner function [traverse(node, cond)] of [get_evolution_tree];
    the list [tree] it appends to is passed in and returned. *)
Fixpoint traverse (lang : string) (cache_dict : gmap string entry)
    (node : chain_node) (cond : string) (tree : list tree_item)
    : result (list tree_item) :=
  match species node with
  | None => Raise KeyError
  | Some name_en =>
      match cache_dict !! name_en with
      | None => Ok tree
      | Some e =>
          let tree :=
            (tree ++
            [ {| t_name := if String.eqb lang "日本語" then e_name_ja e else e_name_en e;
                 t_name_en := name_en;
                 t_id := e_id e;
                 t_img := e_img e;
                 t_types := translate_types (e_types e) lang type_name_map;
                 t_condition :=
                   if truthy_str cond then cond
                   else if String.eqb lang "日本語" then "条件不明"
                   else "Unknown condition" |} ])%list in
          (fix each (evos : list chain_node) (tree : list tree_item)
               : result (list tree_item) :=
             match evos with
             | [] => Ok tree
             | evo :: rest =>
                 let next_cond :=
                   format_evolution_conditions (Some (evolution_details evo)) lang in
                 match traverse lang cache_dict evo next_cond tree with
                 | Ok tree => each rest tree
                 | Raise e => Raise e
                 end
             end) (evolves_to node) tree
      end
  end.

(** [get_evolution_tree(base_en, lang, cache_dict, item_map)] *)
Definition get_evolution_tree (base_en : string) (lang : string)
    (cache_dict : gmap string entry) (item_map : gmap string string)
    : result (list tree_item) :=
  let tree := [] in
  match cache_dict !! base_en with
  | None => Ok tree
  | Some root =>
      match e_chain root with
      | None => Raise AttributeError
      | Some doc =>
          let chain := default empty_node (chain doc) in
          traverse lang cache_dict chain "" tree
      end
  end.

End Logic.

(* ===================================================================== *)
(** ** The upstream provider and the effects of the pipeline *)
(* ===================================================================== *)

(** What the run does to the outside, oldest event first. *)
Inductive event : Type :=
  | Get (url : string)        (* session.get(url) *)
  | Print (line : string)     (* print(line) *)
  | Sleep (seconds : Z).      (* await asyncio.sleep(seconds) *)

Definition world : Type := list event.

Definition is_get (ev : event) : bool :=
  match ev with
  | Get _ => true
  | _ => false
  end.

(** Number of requests issued so far. *)
Definition requests (w : world) : nat := length (List.filter is_get w).

Definition is_print (ev : event) : bool :=
  match ev with
  | Print _ => true
  | _ => false
  end.

(** The events of a run without what it printed. *)
Definition without_prints (evs : list event) : list event :=
  List.filter (fun ev => negb (is_print ev)) evs.

(** [k] failed attempts on [url]: a request, then a wait of one second,
    [k] times over. *)
Fixpoint retry_pattern (url : string) (k : nat) : list event :=
  match k with
  | O => []
  | S k => Get url :: Sleep 1 :: retry_pattern url k
  end.

(** What [resp.json()] does: it returns the document or raises. *)
Inductive json_body (D : Type) : Type :=
  | Parsed (d : D)
  | Unparsable (e : string).
Arguments Parsed {D} d.
Arguments Unparsable {D} e.

(** What one [session.get(url)] does: it raises (a network exception with
    text [e]), or answers with a status code and a body. *)
Inductive outcome (D : Type) : Type :=
  | GetRaises (e : string)
  | Responds (status : Z) (body : json_body D).
Arguments GetRaises {D} e.
Arguments Responds {D} status body.

(** An endpoint of the provider answers the [n]-th request of the run,
    made to [url], in any way it likes. *)
Definition endpoint (D : Type) : Type := string -> nat -> outcome D.

(** The [n]-th request, made to [url], ends in an exception inside the
    [try] block: [session.get] raises, or the status is 200 and
    [resp.json()] raises. *)
Definition raises {D : Type} (ep : endpoint D) (url : string) (n : nat) : Prop :=
  match ep url n with
  | GetRaises _ => True
  | Responds status (Unparsable _) => status = 200
  | Responds _ (Parsed _) => False
  end.

(** An endpoint that is unreachable, and one that times out once and then
    answers 404. *)
Definition always_down {D : Type} : endpoint D :=
  fun _ _ => GetRaises "Cannot connect to host".
Definition timeout_then_404 {D : Type} : endpoint D :=
  fun _ n => if (n <? 1)%nat then GetRaises "Timeout"
             else Responds 404 (Unparsable "Not Found").

(** Computations of the pipeline: they read and extend the world and
    return a value or raise. *)
Definition M (A : Type) : Type := world -> result A * world.

#[global] Instance M_ret : MRet M := fun A a w => (Ok a, w).
#[global] Instance M_bind : MBind M := fun A B k m w =>
  match m w with
  | (Ok a, w') => k a w'
  | (Raise e, w') => (Raise e, w')
  end.

Definition raise {A : Type} (e : exn) : M A := fun w => (Raise e, w).
Definition emit (ev : event) : M unit := fun w => (Ok tt, (w ++ [ev])%list).
Definition print (line : string) : M unit := emit (Print line).
Definition sleep (seconds : Z) : M unit := emit (Sleep seconds).
Definition session_get {D : Type} (ep : endpoint D) (url : string) : M (outcome D) :=
  fun w => (Ok (ep url (requests w)), (w ++ [Get url])%list).

(** *** Upstream documents *)

(** An element of a "names" or "form_names" list. *)
Record localized_name : Type := {
  ln_name : string;         (* n["name"] *)
  ln_language : string      (* n["language"]["name"] *)
}.

(** An element of [m["version_group_details"]]. *)
Record version_detail : Type := {
  vd_version_group : string;        (* ["version_group"]["name"] *)
  vd_level_learned_at : Z;          (* ["level_learned_at"] *)
  vd_move_learn_method : string     (* ["move_learn_method"]["name"] *)
}.

(** An element of [data["moves"]]. *)
Record move_ref : Type := {
  m_name : string;                                  (* m["move"]["name"] *)
  m_url : string;                                   (* m["move"]["url"] *)
  m_version_group_details : list version_detail    (* [] when missing *)
}.

(** The primary record of an entity or of one of its varieties. *)
Record pokemon_doc : Type := {
  p_id : Z;                                (* data["id"] *)
  p_name : string;                         (* data["name"] *)
  p_types : list string;                   (* t["type"]["name"] for t in data["types"] *)
  p_official_artwork : option string;      (* sprites.other.official-artwork.front_default *)
  p_front_default : option string;         (* sprites.front_default *)
  p_species_url : string;                  (* data["species"]["url"] *)
  p_is_mega : bool;                        (* data.get("is_mega", False) *)
  p_moves : list move_ref                  (* data.get("moves", []) *)
}.

(** A key of an object whose value may be null: the key is missing, its
    value is null, or it has a value. *)
Inductive field (A : Type) : Type :=
  | Missing
  | Null
  | Present (a : A).
Arguments Missing {A}.
Arguments Null {A}.
Arguments Present {A} a.

(** The species record. *)
Record species_doc : Type := {
  s_names : list localized_name;           (* .get("names", []) *)
  s_form_names : list localized_name;      (* .get("form_names", []) *)
  s_evolution_chain : field (option string);
      (* "evolution_chain": missing, null, or an object whose "url" may
         be missing *)
  s_varieties : list string                (* variety["pokemon"]["url"] *)
}.

(** The detail record of a move. *)
Record move_doc : Type := {
  mv_names : list localized_name           (* .get("names", []) *)
}.

(** The session: one endpoint per kind of document the pipeline reads. *)
Record session : Type := {
  pokemon_at : endpoint pokemon_doc;
  species_at : endpoint species_doc;
  chain_at : endpoint chain_doc;
  move_at : endpoint move_doc
}.

(** A row of the move table. *)
Record move_row : Type := {
  r_pokemon : string;       (* "ポケモン" *)
  r_move : string;          (* "技名" *)
  r_move_ja : string;       (* "技名_日本語" *)
  r_version : string;       (* "バージョン" *)
  r_level : Z;              (* "習得レベル" *)
  r_method : string         (* "習得方法" *)
}.

(* ===================================================================== *)
(** ** generate_cache.py *)
(* ===================================================================== *)

Definition POKEAPI_BASE : string := "https://pokeapi.co/api/v2".

(** The loop [for attempt in range(retries)] of [fetch_json], over the
    attempts that remain. *)
Fixpoint fetch_json_attempts {D : Type} (ep : endpoint D) (url : string)
    (retries : nat) (range : list nat) : M (option D) :=
  match range with
  | [] => mret None
  | attempt :: rest =>
      let except (e : string) : M (option D) :=
        print ("Error fetching " ++ url ++ " (attempt "
               ++ pretty (S attempt) ++ "/" ++ pretty retries ++ "): " ++ e) ;;
        sleep 1 ;;
        fetch_json_attempts ep url retries rest in
      resp ← session_get ep url ;
      match resp with
      | GetRaises e => except e
      | Responds status body =>
          if status =? 200 then
            match body with
            | Parsed d => mret (Some d)
            | Unparsable e => except e
            end
          else
            print ("Failed to fetch " ++ url ++ ": status " ++ pretty status) ;;
            mret None
      end
  end.

(** [fetch_json(session, url, retries=3)] *)
Definition fetch_json {D : Type} (ep : endpoint D) (url : string) : M (option D) :=
  let retries := 3%nat in
  fetch_json_attempts ep url retries (seq 0 retries).

(** [next((n["name"] for n in names if n["language"]["name"] == "ja-Hrkt"), default)] *)
Definition next_ja_hrkt (names : list localized_name) (default : string) : string :=
  match List.find (fun n => String.eqb (ln_language n) "ja-Hrkt") names with
  | Some n => ln_name n
  | None => default
  end.

(** The text the inner loop [for detail in ...] of [search] returns for the
    first detail record. *)
Definition detail_condition (item_map : gmap string string)
    (detail : evolution_detail) : string :=
  let item := item detail in
  let trigger := trigger detail in
  let level := min_level detail in
  if truthy truthy_str item then
    default (str_str item) (item_map !! str_str item) ++ "を使う"
  else if truthy truthy_int level then
    "Lv" ++ str_int level ++ "で進化"
  else if truthy truthy_str trigger then
    str_str trigger ++ "で進化"
  else
    "進化条件不明".

(** The inner function [search(chain)] of
    [extract_evolution_condition_from_chain]. *)
Fixpoint search (item_map : gmap string string) (target_name : string)
    (chain : chain_node) : string :=
  (fix each (evos : list chain_node) : string :=
     match evos with
     | [] => "進化条件不明"
     | evo :: rest =>
         let species_name := species evo in
         let after_details :=
           let result := search item_map target_name evo in
           if truthy_str result then result else each rest in
         if bool_decide (species_name = Some target_name) then
           match evolution_details evo with
           | detail :: _ => detail_condition item_map detail
           | [] => after_details
           end
         else after_details
     end) (evolves_to chain).

(** [extract_evolution_condition_from_chain(chain_data, target_name, item_map)] *)
Definition extract_evolution_condition_from_chain (chain_data : chain_doc)
    (target_name : string) (item_map : gmap string string) : string :=
  search item_map target_name (default empty_node (chain chain_data)).

(** The nodes below [node] in depth-first pre-order; the root itself, which
    has no incoming condition, is not among them. *)
Fixpoint descendants (node : chain_node) : list chain_node :=
  (fix below (evos : list chain_node) : list chain_node :=
     match evos with
     | [] => []
     | evo :: rest => (evo :: descendants evo ++ below rest)%list
     end) (evolves_to node).

(** The path of first children below [node]: its first child, the first
    child of that one, and so on.  In pre-order these nodes come before
    every other descendant. *)
Fixpoint first_child_path (node : chain_node) : list chain_node :=
  match evolves_to node with
  | [] => []
  | evo :: _ => evo :: first_child_path evo
  end.

(** A node that [search] stops at: its slug is the target and it carries
    at least one detail record. *)
Definition is_hit (target_name : string) (evo : chain_node) : bool :=
  bool_decide (species evo = Some target_name)
  && match evolution_details evo with
     | [] => false
     | _ :: _ => true
     end.

(** The text taken from the first detail record of a node. *)
Definition hit_condition (item_map : gmap string string) (evo : chain_node)
    : string :=
  match evolution_details evo with
  | detail :: _ => detail_condition item_map detail
  | [] => "進化条件不明"
  end.

(** [extract_form_info(session, form_detail, item_map, evolution_chain)] *)
Definition extract_form_info (session : session) (form_detail : pokemon_doc)
    (item_map : gmap string string) (evolution_chain : option chain_doc)
    : M form :=
  let form_name_en := p_name form_detail in
  let form_species_url := p_species_url form_detail in
  form_species_data ←
    (if truthy_str form_species_url
     then fetch_json (species_at session) form_species_url
     else mret None) ;
  let form_name_ja :=
    match form_species_data with
    | Some sd => next_ja_hrkt (s_names sd) form_name_en
    | None => form_name_en
    end in
  let form_label :=
    match form_species_data with
    | Some sd => next_ja_hrkt (s_form_names sd) ""
    | None => ""
    end in
  let is_mega := p_is_mega form_detail in
  let form_label :=
    if is_mega && negb (truthy_str form_label) then "メガのすがた" else form_label in
  let image_url := or_str (p_official_artwork form_detail) (p_front_default form_detail) in
  let evolution_condition := "" in
  let evolution_condition :=
    match evolution_chain with
    | Some chain_data =>
        if truthy_chain_doc chain_data
        then extract_evolution_condition_from_chain chain_data form_name_en item_map
        else evolution_condition
    | None => evolution_condition
    end in
  mret {| f_name_en := form_name_en;
          f_name_ja := form_name_ja;
          f_img := image_url;
          f_form_label := form_label;
          f_is_mega := is_mega;
          f_evolution_condition := evolution_condition |}.

(** The loop [for variety in species_data.get("varieties", [])] of
    [fetch_pokemon]; [forms_data] is the list appended to. *)
Fixpoint fetch_varieties (session : session) (item_map : gmap string string)
    (evolution_chain : option chain_doc) (varieties : list string)
    (forms_data : list form) : M (list form) :=
  match varieties with
  | [] => mret forms_data
  | form_url :: rest =>
      form_detail ← fetch_json (pokemon_at session) form_url ;
      match form_detail with
      | Some form_detail =>
          form_info ← extract_form_info session form_detail item_map evolution_chain ;
          fetch_varieties session item_map evolution_chain rest
            (forms_data ++ [form_info])%list
      | None =>
          fetch_varieties session item_map evolution_chain rest forms_data
      end
  end.

(** [fetch_pokemon(session, pokemon_id, item_map)] *)
Definition fetch_pokemon (session : session) (pokemon_id : Z)
    (item_map : gmap string string) : M (option entry) :=
  let url := POKEAPI_BASE ++ "/pokemon/" ++ pretty pokemon_id in
  data ← fetch_json (pokemon_at session) url ;
  match data with
  | None => mret None
  | Some data =>
      let name_en := p_name data in
      let types := p_types data in
      let img := or_str (p_official_artwork data) (p_front_default data) in
      let species_url := p_species_url data in
      species_data ← fetch_json (species_at session) species_url ;
      '(name_ja, evolution_chain, forms_data) ←
        match species_data with
        | Some species_data =>
            let name_ja :=
              ln_name <$>
                List.find (fun n => String.eqb (ln_language n) "ja-Hrkt")
                          (s_names species_data) in
            evolution_chain_url ←
              match s_evolution_chain species_data with
              | Missing => mret None
              | Null => raise AttributeError
              | Present evolution_chain => mret evolution_chain
              end ;
            evolution_chain ←
              (if truthy truthy_str evolution_chain_url
               then fetch_json (chain_at session) (str_str evolution_chain_url)
               else mret None) ;
            forms_data ←
              fetch_varieties session item_map evolution_chain
                (s_varieties species_data) [] ;
            mret (name_ja, evolution_chain, forms_data)
        | None => mret (None, None, [])
        end ;
      mret (Some {| e_id := p_id data;
                    e_name_en := name_en;
                    e_name_ja := if truthy truthy_str name_ja
                                 then str_str name_ja else name_en;
                    e_types := types;
                    e_img := img;
                    e_chain := evolution_chain;
                    e_forms := forms_data |})
  end.

(** The loop [for version_detail in m.get("version_group_details", [])] of
    [fetch_pokemon_moves]: the rows it appends. *)
Definition version_rows (pokemon_name move_name_en move_name_ja : string)
    (version_map : gmap string string) (details : list version_detail)
    : list move_row :=
  map (fun version_detail =>
         let version_en := vd_version_group version_detail in
         let version_ja := default version_en (version_map !! version_en) in
         let level_learned := vd_level_learned_at version_detail in
         let learn_method_en := vd_move_learn_method version_detail in
         {| r_pokemon := pokemon_name;
            r_move := move_name_en;
            r_move_ja := move_name_ja;
            r_version := version_ja;
            r_level := level_learned;
            r_method := learn_method_en |}) details.

(** The loop [for m in data.get("moves", [])] of [fetch_pokemon_moves].
    [move_data.get] is evaluated on whatever the fetch returned. *)
Fixpoint fetch_moves_loop (session : session) (pokemon_name : string)
    (version_map : gmap string string) (moves : list move_ref)
    (moves_list : list move_row) : M (list move_row) :=
  match moves with
  | [] => mret moves_list
  | m :: rest =>
      let move_name_en := m_name m in
      let move_url := m_url m in
      move_data ← fetch_json (move_at session) move_url ;
      move_name_ja ←
        match move_data with
        | Some move_data => mret (next_ja_hrkt (mv_names move_data) move_name_en)
        | None => raise AttributeError
        end ;
      fetch_moves_loop session pokemon_name version_map rest
        (moves_list ++
         version_rows pokemon_name move_name_en move_name_ja version_map
           (m_version_group_details m))%list
  end.

(** [fetch_pokemon_moves(session, pokemon_name, version_map)] *)
Definition fetch_pokemon_moves (session : session) (pokemon_name : string)
    (version_map : gmap string string) : M (list move_row) :=
  let url := POKEAPI_BASE ++ "/pokemon/" ++ pokemon_name in
  data ← fetch_json (pokemon_at session) url ;
  match data with
  | None => mret []
  | Some data => fetch_moves_loop session pokemon_name version_map (p_moves data) []
  end.

(** *** [main]: gathering and sorting the entity records *)

(** [sorted(pokemon_list, key=lambda x: x["図鑑番号"])]: ascending in the
    key and stable, records with equal keys keeping their order.  [res]
    goes in front of the first record whose key is not smaller. *)
Fixpoint insert_by_id (res : entry) (sorted : list entry) : list entry :=
  match sorted with
  | [] => [res]
  | x :: rest =>
      if e_id res <=? e_id x then res :: sorted
      else x :: insert_by_id res rest
  end.

Fixpoint sorted_by_id (pokemon_list : list entry) : list entry :=
  match pokemon_list with
  | [] => []
  | res :: rest => insert_by_id res (sorted_by_id rest)
  end.

(** The loop over [asyncio.as_completed(pokemon_tasks)]: [completed] holds
    what each awaited task produced, in completion order; an exception of
    a task propagates out of [await task]. *)
Fixpoint gather (completed : list (result (option entry)))
    (pokemon_list : list entry) : result (list entry) :=
  match completed with
  | [] => Ok pokemon_list
  | task :: rest =>
      match task with
      | Raise e => Raise e
      | Ok res =>
          match res with
          | Some res => gather rest (pokemon_list ++ [res])%list
          | None => gather rest pokemon_list
          end
      end
  end.


(** The IDs [range(1, 1026)] the tasks are created for. *)
Definition pokemon_ids : list Z := map Z.of_nat (seq 1 1025).

(** What the task [fetch_pokemon(session, i, item_map)] produces.  Tasks
    interleave at every [await], so the request numbers a task sees are
    not consecutive: each task runs against its own view [view i] of the
    provider, from its own point [start i] of the run. *)
Definition task_result (view : Z -> session) (start : Z -> world)
    (item_map : gmap string string) (i : Z) : result (option entry) :=
  fst (fetch_pokemon (view i) i item_map (start i)).

(** The collection [main] writes to pokemon_cache.json when the tasks
    complete in the order [order]. *)
Definition main_pokemon_cache (view : Z -> session) (start : Z -> world)
    (item_map : gmap string string) (order : list Z) : result (list entry) :=
  match gather (map (task_result view start item_map) order) [] with
  | Ok pokemon_list => Ok (sorted_by_id pokemon_list)
  | Raise e => Raise e
  end.

(** *** [fetch_all_items] *)

(** The item listing: [item["url"] for item in data["results"]]. *)
Record item_list_doc : Type := {
  il_results : list string
}.

(** The detail record of an item. *)
Record item_doc : Type := {
  i_name : string;                       (* item_data["name"] *)
  i_names : list localized_name          (* item_data.get("names", []) *)
}.

(** The endpoints of the session that serve the item listing and the
    item details. *)
Record item_session : Type := {
  item_list_at : endpoint item_list_doc;
  item_at : endpoint item_doc
}.

(** The loop [for item in data["results"]] of [fetch_all_items];
    [item_map] is the dict it fills. *)
Fixpoint fetch_items_loop (session : item_session) (results : list string)
    (item_map : gmap string string) : M (gmap string string) :=
  match results with
  | [] => mret item_map
  | item_url :: rest =>
      item_data ← fetch_json (item_at session) item_url ;
      match item_data with
      | None => fetch_items_loop session rest item_map
      | Some item_data =>
          let name_en := i_name item_data in
          let name_ja := next_ja_hrkt (i_names item_data) name_en in
          fetch_items_loop session rest (<[name_en := name_ja]> item_map)
      end
  end.

(** [fetch_all_items(session)] *)
Definition fetch_all_items (session : item_session) : M (gmap string string) :=
  let url := POKEAPI_BASE ++ "/item?limit=10000" in
  data ← fetch_json (item_list_at session) url ;
  match data with
  | None => mret ∅
  | Some data => fetch_items_loop session (il_results data) ∅
  end.

(** *** [main]: the move table and the move-name map *)

(** The loop [for p in pokemon_list_sorted] of [main]; [moves_all] is the
    list it extends.  The carriage return starts the progress line. *)
Fixpoint main_moves (session : session) (version_map : gmap string string)
    (pokemon_list_sorted : list entry) (moves_all : list move_row)
    : M (list move_row) :=
  match pokemon_list_sorted with
  | [] => mret moves_all
  | p :: rest =>
      moves ← fetch_pokemon_moves session (e_name_en p) version_map ;
      print (String (Ascii.ascii_of_nat 13) "技取得中: " ++ e_name_en p) ;;
      main_moves session version_map rest (moves_all ++ moves)%list
  end.

(** [{row["技名"]: row["技名_日本語"] for row in moves_all}]: a later row
    replaces what an earlier row with the same slug stored. *)
Definition move_names (moves_all : list move_row) : gmap string string :=
  fold_left (fun names row => <[r_move row := r_move_ja row]> names) moves_all ∅.

(* ===================================================================== *)
(** ** simple_app.py *)
(* ===================================================================== *)

(** [load_pokemon_data()], [raw_data] being what [load_pokemon_cache()]
    returns: [{entry["英語名"]: entry for entry in raw_data}]. *)
Definition load_pokemon_data (raw_data : list entry) : gmap string entry :=
  fold_left (fun data entry => <[e_name_en entry := entry]> data) raw_data ∅.

(* ===================================================================== *)
(** ** Records used in the scenarios *)
(* ===================================================================== *)

(** *** An upstream for the scenarios

    The primary record of entity 25 is served under its ID and under its
    slug by two sessions; species records, evolution chains and move
    details cannot be reached. *)
Definition pikachu_doc : pokemon_doc :=
  {| p_id := 25; p_name := "pikachu"; p_types := ["electric"];
     p_official_artwork := Some "https://raw.githubusercontent.com/PokeAPI/sprites/master/sprites/pokemon/other/official-artwork/25.png";
     p_front_default := Some "https://raw.githubusercontent.com/PokeAPI/sprites/master/sprites/pokemon/25.png";
     p_species_url := "https://pokeapi.co/api/v2/pokemon-species/25/";
     p_is_mega := false;
     p_moves :=
       [ {| m_name := "thunder-shock";
            m_url := "https://pokeapi.co/api/v2/move/84/";
            m_version_group_details :=
              [ {| vd_version_group := "red-blue"; vd_level_learned_at := 1;
                   vd_move_learn_method := "level-up" |} ] |} ] |}.

Definition serving_pikachu_at (primary_url : string) : session :=
  {| pokemon_at := fun url _ =>
       if String.eqb url primary_url
       then Responds 200 (Parsed pikachu_doc)
       else Responds 404 (Unparsable "Not Found");
     species_at := always_down;
     chain_at := always_down;
     move_at := always_down |}.

Definition only_pikachu : session :=
  serving_pikachu_at "https://pokeapi.co/api/v2/pokemon/25".
Definition only_pikachu_by_name : session :=
  serving_pikachu_at "https://pokeapi.co/api/v2/pokemon/pikachu".

(** Two evolution chains: a line (bulbasaur, ivysaur, venusaur) and a
    branching one (eevee with three of its evolutions). *)
Definition by_level (lvl : Z) : evolution_detail :=
  {| trigger := Some "level-up"; min_level := Some lvl; item := None;
     min_happiness := None; time_of_day := Some ""; known_move := None |}.
Definition by_item (slug : string) : evolution_detail :=
  {| trigger := Some "use-item"; min_level := None; item := Some slug;
     min_happiness := None; time_of_day := Some ""; known_move := None |}.

Definition bulbasaur_chain : chain_doc :=
  {| chain := Some
       (ChainNode (Some "bulbasaur") []
          [ ChainNode (Some "ivysaur") [by_level 16]
              [ ChainNode (Some "venusaur") [by_level 32] [] ] ]);
     other_keys := ["baby_trigger_item"; "id"] |}.

Definition eevee_chain : chain_doc :=
  {| chain := Some
       (ChainNode (Some "eevee") []
          [ ChainNode (Some "vaporeon") [by_item "water-stone"] [];
            ChainNode (Some "jolteon") [by_item "thunder-stone"] [];
            ChainNode (Some "flareon") [by_item "fire-stone"] [] ]);
     other_keys := ["baby_trigger_item"; "id"] |}.

(** The primary record of the variety ivysaur. *)
Definition ivysaur_doc : pokemon_doc :=
  {| p_id := 2; p_name := "ivysaur"; p_types := ["grass"; "poison"];
     p_official_artwork := None;
     p_front_default := Some "https://raw.githubusercontent.com/PokeAPI/sprites/master/sprites/pokemon/2.png";
     p_species_url := "https://pokeapi.co/api/v2/pokemon-species/2/";
     p_is_mega := false; p_moves := [] |}.

(** An item-triggered evolution that also carries a minimum level. *)
Definition item_triggered_with_level : evolution_detail :=
  {| trigger := Some "use-item"; min_level := Some 16;
     item := Some "fire-stone"; min_happiness := None;
     time_of_day := Some ""; known_move := None |}.

(** Two entities of a cache. *)
Definition pikachu : entry :=
  {| e_id := 25; e_name_en := "pikachu"; e_name_ja := "ピカチュウ";
     e_types := ["electric"]; e_img := None;
     e_chain := None; e_forms := [] |}.
Definition porygon_z : entry :=
  {| e_id := 474; e_name_en := "porygon-z"; e_name_ja := "ポリゴンZ";
     e_types := ["normal"]; e_img := None;
     e_chain := None; e_forms := [] |}.

(** The record the pipeline caches for entity 25 when its species record
    could not be fetched: the evolution chain is null. *)
Definition pikachu_without_species : entry :=
  {| e_id := 25; e_name_en := "pikachu"; e_name_ja := "pikachu";
     e_types := ["electric"];
     e_img := Some "https://raw.githubusercontent.com/PokeAPI/sprites/master/sprites/pokemon/other/official-artwork/25.png";
     e_chain := None; e_forms := [] |}.

(* ===================================================================== *)
(** * Properties *)
(* ===================================================================== *)

(** ** Truth values *)

Lemma truthy_int_Some (z : Z) : z <> 0 -> truthy truthy_int (Some z) = true.
Proof.
  intros Hz. simpl. unfold truthy_int.
  destruct (Z.eqb_spec z 0); [contradiction | reflexivity].
Qed.

Lemma truthy_str_Some (s : string) : s <> "" -> truthy truthy_str (Some s) = true.
Proof.
  intros Hs. simpl. unfold truthy_str.
  destruct (String.eqb_spec s ""); [contradiction | reflexivity].
Qed.

Lemma join_singleton (sep text : string) : join sep [text] = text.
Proof. reflexivity. Qed.

(** ** The evolution-condition formatter *)

Section FormatProps.

Variable item_name_map : gmap string string.

(** A single record is formatted by the loop body alone, in both locales. *)
Lemma format_single (d : evolution_detail) (lang : string) :
  format_evolution_conditions item_name_map (Some [d]) lang
  = condition_text item_name_map d lang.
Proof.
  unfold format_evolution_conditions. simpl map.
  rewrite !join_singleton. destruct (String.eqb lang "日本語"); reflexivity.
Qed.

(** Rule (a): a level-up trigger with a non-zero minimum level. *)
Lemma format_level_up (d : evolution_detail) (lang : string) (lvl : Z) :
  trigger d = Some "level-up" -> min_level d = Some lvl -> lvl <> 0 ->
  format_evolution_conditions item_name_map (Some [d]) lang
  = if String.eqb lang "日本語"
    then pretty lvl ++ "レベルで進化"
    else "Evolves at level " ++ pretty lvl.
Proof.
  intros Htrig Hlvl Hnz. rewrite format_single. unfold condition_text.
  rewrite Htrig, Hlvl, (truthy_int_Some lvl Hnz). simpl.
  destruct (String.eqb lang "日本語"); reflexivity.
Qed.

(** Rule (b): a use-item trigger with a named item. *)
Lemma format_use_item (d : evolution_detail) (lang : string) (itm : string) :
  trigger d = Some "use-item" -> item d = Some itm -> itm <> "" ->
  format_evolution_conditions item_name_map (Some [d]) lang
  = if String.eqb lang "日本語"
    then safe_translate itm item_name_map ++ "を使う"
    else "Use " ++ itm ++ " to evolve".
Proof.
  intros Htrig Hitm Hne. rewrite format_single. unfold condition_text.
  rewrite Htrig, Hitm, (truthy_str_Some itm Hne). simpl.
  destruct (String.eqb lang "日本語"); reflexivity.
Qed.

(** C1, as amended.  Rule (a) tests the trigger kind itself: a record
    whose trigger is level-up and whose minimum level is non-zero resolves
    to the level-up text whether or not an item is set, while a record
    whose trigger is use-item and that names an item resolves to the
    item-use text whether or not a minimum level is set, in both locales. *)
Theorem format_rule_priority (d : evolution_detail) (lang : string) :
  (forall lvl, trigger d = Some "level-up" -> min_level d = Some lvl -> lvl <> 0 ->
     format_evolution_conditions item_name_map (Some [d]) lang
     = if String.eqb lang "日本語"
       then pretty lvl ++ "レベルで進化"
       else "Evolves at level " ++ pretty lvl)
  /\
  (forall itm, trigger d = Some "use-item" -> item d = Some itm -> itm <> "" ->
     format_evolution_conditions item_name_map (Some [d]) lang
     = if String.eqb lang "日本語"
       then safe_translate itm item_name_map ++ "を使う"
       else "Use " ++ itm ++ " to evolve").
Proof.
  split.
  - intros lvl. apply format_level_up.
  - intros itm. apply format_use_item.
Qed.

(** C9.  An empty or missing detail list gives the "unknown condition"
    text; a record that matches none of the rules (a) to (e) gives the
    "special condition" text; the two texts differ in each locale. *)
Theorem format_unknown_and_special (d : evolution_detail) (lang : string) :
  String.eqb (default "" (trigger d)) "level-up" && truthy truthy_int (min_level d) = false ->
  String.eqb (default "" (trigger d)) "use-item" && truthy truthy_str (item d) = false ->
  truthy truthy_int (min_happiness d) = false ->
  truthy truthy_str (known_move d) = false ->
  truthy truthy_str (time_of_day d) = false ->
  let unknown := if String.eqb lang "日本語" then "条件不明" else "Unknown condition" in
  let special := if String.eqb lang "日本語" then "特殊な条件で進化" else "Special condition" in
  format_evolution_conditions item_name_map None lang = unknown /\
  format_evolution_conditions item_name_map (Some []) lang = unknown /\
  format_evolution_conditions item_name_map (Some [d]) lang = special /\
  unknown <> special.
Proof.
  intros Ha Hb Hc Hd He unknown special. subst unknown special.
  repeat split.
  - rewrite format_single. unfold condition_text.
    rewrite Ha, Hb, Hc, Hd, He. destruct (String.eqb lang "日本語"); reflexivity.
  - destruct (String.eqb lang "日本語"); discriminate.
Qed.

End FormatProps.

(** C1 as stated fails: a record with both a minimum level and an item
    does not always resolve to the level-up text. *)
Lemma format_level_and_item_counterexample :
  ~ (forall (item_name_map : gmap string string) (d : evolution_detail)
            (lang : string) (lvl : Z) (itm : string),
       min_level d = Some lvl -> lvl <> 0 -> item d = Some itm -> itm <> "" ->
       format_evolution_conditions item_name_map (Some [d]) lang
       = if String.eqb lang "日本語"
         then pretty lvl ++ "レベルで進化"
         else "Evolves at level " ++ pretty lvl).
Proof.
  intros H.
  specialize (H ∅ item_triggered_with_level "English" 16 "fire-stone"
                eq_refl ltac:(lia) eq_refl ltac:(discriminate)).
  vm_compute in H. discriminate H.
Qed.

Lemma format_rule_priority_witness :
  format_evolution_conditions ∅
    (Some [ {| trigger := Some "level-up"; min_level := Some 16;
               item := Some "fire-stone"; min_happiness := None;
               time_of_day := Some ""; known_move := None |} ]) "日本語"
  = "16レベルで進化"
  /\
  format_evolution_conditions ∅ (Some [item_triggered_with_level]) "English"
  = "Use fire-stone to evolve".
Proof.
  split.
  - apply (proj1 (format_rule_priority ∅ _ "日本語") 16);
      [reflexivity | reflexivity | lia].
  - apply (proj2 (format_rule_priority ∅ item_triggered_with_level "English")
             "fire-stone"); [reflexivity | reflexivity | discriminate].
Defined.

Lemma format_unknown_and_special_witness :
  format_evolution_conditions ∅ None "日本語" = "条件不明" /\
  format_evolution_conditions ∅ (Some []) "日本語" = "条件不明" /\
  format_evolution_conditions ∅
    (Some [ {| trigger := Some "trade"; min_level := None; item := None;
               min_happiness := None; time_of_day := Some "";
               known_move := None |} ]) "日本語" = "特殊な条件で進化" /\
  "条件不明" <> "特殊な条件で進化".
Proof.
  apply (format_unknown_and_special ∅
           {| trigger := Some "trade"; min_level := None; item := None;
              min_happiness := None; time_of_day := Some "";
              known_move := None |} "日本語"); reflexivity.
Defined.

(** ** The evolution-tree traversal *)

(** Induction on chain nodes, with the hypothesis for every child. *)
Fixpoint chain_node_nested_ind (P : chain_node -> Prop)
    (step : forall s ds evos, Forall P evos -> P (ChainNode s ds evos))
    (node : chain_node) : P node :=
  match node with
  | ChainNode s ds evos =>
      step s ds evos
        ((fix children (l : list chain_node) : Forall P l :=
            match l with
            | [] => @List.Forall_nil _ P
            | evo :: rest =>
                @List.Forall_cons _ P evo rest (chain_node_nested_ind P step evo) (children rest)
            end) evos)
  end.

Section TreeProps.

Variable item_name_map : gmap string string.
Variable type_name_map : gmap string string.
Variable lang : string.
Variable cache_dict : gmap string entry.

(** A node whose slug is absent from the cache adds nothing, whatever
    lies below it. *)
Lemma traverse_absent (node : chain_node) (name_en cond : string)
    (tree : list tree_item) :
  species node = Some name_en -> cache_dict !! name_en = None ->
  traverse item_name_map type_name_map lang cache_dict node cond tree = Ok tree.
Proof.
  intros Hs Hc. destruct node as [s ds evos]. simpl in *. subst s.
  rewrite Hc. reflexivity.
Qed.

(** Whatever [traverse] returns extends the list it was given by items
    whose slug is a key of the cache. *)
Lemma traverse_appends_cached (node : chain_node) :
  forall (cond : string) (tree tree' : list tree_item),
    traverse item_name_map type_name_map lang cache_dict node cond tree = Ok tree' ->
    exists added,
      tree' = (tree ++ added)%list /\
      Forall (fun x => is_Some (cache_dict !! t_name_en x)) added.
Proof.
  induction node as [s ds evos IH] using chain_node_nested_ind.
  intros cond tree tree'. simpl.
  destruct s as [name_en|]; [|discriminate].
  destruct (cache_dict !! name_en) as [e|] eqn:Hc.
  - match goal with
    | |- context [ (tree ++ [?x])%list ] => set (here := x)
    end.
    assert (Hhere : is_Some (cache_dict !! t_name_en here)).
    { subst here. simpl. rewrite Hc. eauto. }
    assert (Hloop : forall acc out,
      (fix each (evos : list chain_node) (tree : list tree_item)
           : result (list tree_item) :=
         match evos with
         | [] => Ok tree
         | evo :: rest =>
             match
               traverse item_name_map type_name_map lang cache_dict evo
                 (format_evolution_conditions item_name_map
                    (Some (evolution_details evo)) lang) tree
             with
             | Ok tree => each rest tree
             | Raise e => Raise e
             end
         end) evos acc = Ok out ->
      exists added, out = (acc ++ added)%list /\
        Forall (fun x => is_Some (cache_dict !! t_name_en x)) added).
    { induction IH as [|evo rest Hevo _ IHrest]; intros acc out Hrun.
      - inversion Hrun; subst. exists []. rewrite app_nil_r.
        split; [reflexivity | constructor].
      - destruct (traverse item_name_map type_name_map lang cache_dict evo _ acc)
          as [mid|e'] eqn:Hmid; [|discriminate].
        apply Hevo in Hmid. destruct Hmid as (a1 & -> & Ha1).
        apply IHrest in Hrun. destruct Hrun as (a2 & -> & Ha2).
        exists (a1 ++ a2)%list. rewrite app_assoc. split; [reflexivity|].
        apply Forall_app; split; assumption. }
    intros Hrun. apply Hloop in Hrun. destruct Hrun as (added & -> & Hadded).
    exists (here :: added). rewrite <- app_assoc. split; [reflexivity|].
    constructor; assumption.
  - intros H. inversion H; subst. exists []. rewrite app_nil_r.
    split; [reflexivity | constructor].
Qed.

(** The tree returned for any base slug holds only entities of the cache. *)
Lemma get_evolution_tree_cached_only (base_en : string)
    (item_map : gmap string string) (tree : list tree_item) :
  get_evolution_tree item_name_map type_name_map base_en lang cache_dict item_map
  = Ok tree ->
  Forall (fun x => is_Some (cache_dict !! t_name_en x)) tree.
Proof.
  unfold get_evolution_tree.
  destruct (cache_dict !! base_en) as [root|]; [|intros H; inversion H; constructor].
  destruct (e_chain root) as [doc|]; [|discriminate].
  intros H. apply traverse_appends_cached in H.
  destruct H as (added & -> & Hadded). exact Hadded.
Qed.

End TreeProps.

(** C2 fails on the code.  For a cached entity whose evolution chain is
    null, [get_evolution_tree] raises AttributeError instead of returning
    a sequence; for one whose chain document lacks the "chain" key,
    whatever other keys it has, it raises KeyError. *)
Theorem get_evolution_tree_raises (item_name_map type_name_map item_map : gmap string string)
    (lang : string) (keys : list string) :
  get_evolution_tree item_name_map type_name_map "pikachu" lang
    {[ "pikachu" := pikachu_without_species ]} item_map
  = Raise AttributeError
  /\
  get_evolution_tree item_name_map type_name_map "pikachu" lang
    {[ "pikachu" := {| e_id := 25; e_name_en := "pikachu"; e_name_ja := "ピカチュウ";
                       e_types := ["electric"]; e_img := None;
                       e_chain := Some {| chain := None; other_keys := keys |};
                       e_forms := [] |} ]}
    item_map
  = Raise KeyError.
Proof.
  unfold get_evolution_tree. rewrite !lookup_singleton_eq. split; reflexivity.
Qed.

(** ** The resilient fetcher *)

Lemma requests_app (w evs : world) :
  requests (w ++ evs)%list = (requests w + requests evs)%nat.
Proof. unfold requests. rewrite List.filter_app, length_app. reflexivity. Qed.

Lemma without_prints_app (evs1 evs2 : list event) :
  without_prints (evs1 ++ evs2)%list = (without_prints evs1 ++ without_prints evs2)%list.
Proof. unfold without_prints. apply List.filter_app. Qed.

Section FetchJson.

Context {D : Type}.
Variable ep : endpoint D.
Variable url : string.
Variable retries : nat.

(** One attempt that ends in an exception: the request, the printed
    line, the wait, then the remaining attempts. *)
Lemma attempt_raises (attempt : nat) (rest : list nat) (w : world) :
  raises ep url (requests w) ->
  exists line,
    fetch_json_attempts ep url retries (attempt :: rest) w
    = fetch_json_attempts ep url retries rest
        (w ++ [Get url; Print line; Sleep 1])%list.
Proof.
  unfold raises. intros Hr. simpl.
  unfold mbind, M_bind, session_get, print, sleep, emit.
  destruct (ep url (requests w)) as [e|status [d|e]]; [| contradiction |].
  - eexists. rewrite <- !app_assoc. reflexivity.
  - subst status. simpl. eexists. rewrite <- !app_assoc. reflexivity.
Qed.

(** [k] attempts in a row that end in an exception. *)
Lemma attempts_raise (k : nat) :
  forall (range : list nat) (w : world),
    (k <= length range)%nat ->
    (forall j, (j < k)%nat -> raises ep url (requests w + j)) ->
    exists evs,
      fetch_json_attempts ep url retries range w
      = fetch_json_attempts ep url retries (drop k range) (w ++ evs)%list /\
      without_prints evs = retry_pattern url k /\
      requests (w ++ evs)%list = (requests w + k)%nat.
Proof.
  induction k as [|k IH]; intros range w Hlen Hall.
  - exists []. rewrite app_nil_r, drop_0, Nat.add_0_r. repeat split.
  - destruct range as [|attempt rest]; [simpl in Hlen; lia|].
    destruct (attempt_raises attempt rest w) as (line & Hstep).
    { specialize (Hall 0%nat ltac:(lia)). rewrite Nat.add_0_r in Hall. exact Hall. }
    pose (w1 := (w ++ [Get url; Print line; Sleep 1])%list).
    assert (Hreq : requests w1 = S (requests w)).
    { subst w1. rewrite requests_app. unfold requests at 2. simpl. lia. }
    destruct (IH rest w1) as (evs & Hrun & Hpat & Hcount).
    { simpl in Hlen. lia. }
    { intros j Hj. rewrite Hreq.
      replace (S (requests w) + j)%nat with (requests w + S j)%nat by lia.
      apply Hall. lia. }
    exists ([Get url; Print line; Sleep 1] ++ evs)%list.
    rewrite app_assoc. fold w1. repeat split.
    + rewrite Hstep. fold w1. rewrite Hrun. reflexivity.
    + rewrite without_prints_app, Hpat. reflexivity.
    + rewrite Hcount, Hreq. lia.
Qed.

End FetchJson.

(** C4.  On a status other than 200, [fetch_json] returns None at once
    and sends no further request; on an exception it tries again, up to
    three requests in all, and waits one second after each failed one;
    when all three fail it returns None. *)
Theorem fetch_json_retry_policy {D : Type} (ep : endpoint D) (url : string)
    (w : world) :
  (forall (k : nat) (status : Z) (body : json_body D),
     (k < 3)%nat ->
     (forall j, (j < k)%nat -> raises ep url (requests w + j)) ->
     ep url (requests w + k)%nat = Responds status body ->
     status <> 200 ->
     exists evs,
       fetch_json ep url w = (Ok None, (w ++ evs)%list) /\
       without_prints evs = (retry_pattern url k ++ [Get url])%list)
  /\
  ((forall j, (j < 3)%nat -> raises ep url (requests w + j)) ->
   exists evs,
     fetch_json ep url w = (Ok None, (w ++ evs)%list) /\
     without_prints evs = retry_pattern url 3).
Proof.
  split.
  - intros k status body Hk Hall Hresp Hstatus.
    destruct (attempts_raise ep url 3 k (seq 0 3) w) as (evs & Hrun & Hpat & Hcount);
      [simpl; lia | exact Hall |].
    unfold fetch_json. rewrite Hrun.
    assert (Hdrop : exists attempt rest, drop k (seq 0 3) = attempt :: rest).
    { destruct k as [|[|[|k]]]; simpl; eauto. lia. }
    destruct Hdrop as (attempt & rest & ->). simpl.
    unfold mbind, M_bind, session_get, print, emit. rewrite Hcount, Hresp.
    destruct (Z.eqb_spec status 200) as [|_]; [contradiction|].
    eexists. rewrite <- !app_assoc. split; [reflexivity|].
    rewrite without_prints_app, Hpat. reflexivity.
  - intros Hall.
    destruct (attempts_raise ep url 3 3 (seq 0 3) w) as (evs & Hrun & Hpat & _);
      [simpl; lia | exact Hall |].
    unfold fetch_json. rewrite Hrun. simpl. exists evs. split; [reflexivity | exact Hpat].
Qed.

Lemma fetch_json_retry_policy_witness :
  (exists evs,
     fetch_json (D := pokemon_doc) timeout_then_404 "https://pokeapi.co/api/v2/pokemon/25" []
     = (Ok None, ([] ++ evs)%list) /\
     without_prints evs
     = (retry_pattern "https://pokeapi.co/api/v2/pokemon/25" 1
        ++ [Get "https://pokeapi.co/api/v2/pokemon/25"])%list)
  /\
  (exists evs,
     fetch_json (D := pokemon_doc) always_down "https://pokeapi.co/api/v2/pokemon/25" []
     = (Ok None, ([] ++ evs)%list) /\
     without_prints evs = retry_pattern "https://pokeapi.co/api/v2/pokemon/25" 3).
Proof.
  split.
  - apply (proj1 (fetch_json_retry_policy timeout_then_404 _ [])
             1%nat 404 (Unparsable "Not Found")).
    + lia.
    + intros j Hj. assert (j = 0)%nat as -> by lia. exact I.
    + reflexivity.
    + lia.
  - apply (proj2 (fetch_json_retry_policy always_down _ [])).
    intros j _. exact I.
Defined.

(** The first answer with status 200 and a readable body is what
    [fetch_json] returns, after one wait per failed attempt before it. *)
Lemma fetch_json_success {D : Type} (ep : endpoint D) (url : string)
    (w : world) (k : nat) (d : D) :
  (k < 3)%nat ->
  (forall j, (j < k)%nat -> raises ep url (requests w + j)) ->
  ep url (requests w + k)%nat = Responds 200 (Parsed d) ->
  exists evs,
    fetch_json ep url w = (Ok (Some d), (w ++ evs)%list) /\
    without_prints evs = (retry_pattern url k ++ [Get url])%list.
Proof.
  intros Hk Hall Hresp.
  destruct (attempts_raise ep url 3 k (seq 0 3) w) as (evs & Hrun & Hpat & Hcount);
    [simpl; lia | exact Hall |].
  unfold fetch_json. rewrite Hrun.
  assert (Hdrop : exists attempt rest, drop k (seq 0 3) = attempt :: rest).
  { destruct k as [|[|[|k]]]; simpl; eauto. lia. }
  destruct Hdrop as (attempt & rest & ->). simpl.
  unfold mbind, M_bind, session_get. rewrite Hcount, Hresp. simpl.
  eexists. rewrite <- !app_assoc. split; [reflexivity|].
  rewrite without_prints_app, Hpat. reflexivity.
Qed.

(** [fetch_json] never raises. *)
Lemma fetch_json_attempts_total {D : Type} (ep : endpoint D) (url : string)
    (retries : nat) (range : list nat) :
  forall w, exists r w', fetch_json_attempts ep url retries range w = (Ok r, w').
Proof.
  induction range as [|attempt rest IH]; intros w; simpl.
  - unfold mret, M_ret. eauto.
  - unfold mbind, M_bind, session_get, print, sleep, emit, mret, M_ret.
    destruct (ep url (requests w)) as [e|status [d|e]].
    + apply IH.
    + destruct (status =? 200); eauto.
    + destruct (status =? 200); [apply IH | eauto].
Qed.

Lemma fetch_json_total {D : Type} (ep : endpoint D) (url : string) (w : world) :
  exists r w', fetch_json ep url w = (Ok r, w').
Proof. apply fetch_json_attempts_total. Qed.

(** ** Search by name or ID *)

Section FindProps.

Variable type_name_map : gmap string string.
Variable lower : string -> string.
Variable strip : string -> string.

(** When no ID and no slug equals the query, the loop returns the first
    entity whose lower-cased Japanese name equals it, under the Japanese
    locale. *)
Lemma lookup_values_ja (q : string) (values : list entry) :
  (forall e, In e values ->
     pretty (e_id e) <> q /\ lower (e_name_en e) <> q) ->
  lookup_values type_name_map lower q "日本語" values
  = (fun e => _make_entry type_name_map e "日本語")
      <$> List.find (fun e => String.eqb (lower (e_name_ja e)) q) values.
Proof.
  induction values as [|e rest IH]; intros Hno; [reflexivity|].
  destruct (Hno e (or_introl eq_refl)) as [Hid Hen].
  apply String.eqb_neq in Hid, Hen. cbn [lookup_values List.find].
  rewrite Hid, Hen. cbn [orb].
  change (String.eqb "日本語" "日本語") with true. cbn [andb].
  destruct (String.eqb (lower (e_name_ja e)) q); [reflexivity|].
  apply IH. intros e' He'. apply Hno. right. exact He'.
Qed.

(** Under any other locale the Japanese name is not consulted. *)
Lemma lookup_values_other (q lang : string) (values : list entry) :
  lang <> "日本語" ->
  (forall e, In e values ->
     pretty (e_id e) <> q /\ lower (e_name_en e) <> q) ->
  lookup_values type_name_map lower q lang values = None.
Proof.
  intros Hlang. apply String.eqb_neq in Hlang.
  induction values as [|e rest IH]; intros Hno; [reflexivity|].
  destruct (Hno e (or_introl eq_refl)) as [Hid Hen].
  apply String.eqb_neq in Hid, Hen. cbn [lookup_values].
  rewrite Hid, Hen, Hlang. cbn [orb andb].
  apply IH. intros e' He'. apply Hno. right. exact He'.
Qed.

(** C6.  A query that, trimmed and lower-cased, equals the lower-cased
    Japanese display name of an entity of the cache, and equals no
    entity's ID string or lower-cased slug, is found under the Japanese
    locale (the first entity with that display name is returned, which is
    that entity when display names do not repeat) and is not found under
    any other locale. *)
Theorem find_is_locale_sensitive (query : string) (cache : list (string * entry))
    (e : entry) :
  let q := lower (strip query) in
  In e (map snd cache) ->
  lower (e_name_ja e) = q ->
  (forall e', In e' (map snd cache) ->
     pretty (e_id e') <> q /\ lower (e_name_en e') <> q) ->
  (exists e0,
     List.find (fun e' => String.eqb (lower (e_name_ja e')) q) (map snd cache)
     = Some e0 /\
     get_pokemon_by_name_or_id type_name_map lower strip query "日本語" cache
     = Some (_make_entry type_name_map e0 "日本語") /\
     ((forall e', In e' (map snd cache) -> lower (e_name_ja e') = q -> e' = e) ->
      e0 = e))
  /\
  (forall lang, lang <> "日本語" ->
     get_pokemon_by_name_or_id type_name_map lower strip query lang cache = None).
Proof.
  intros q Hin Hname Hno. split.
  - destruct (List.find (fun e' => String.eqb (lower (e_name_ja e')) q)
                (map snd cache)) as [e0|] eqn:Hfind.
    + exists e0. split; [reflexivity|]. split.
      * unfold get_pokemon_by_name_or_id. fold q.
        rewrite (lookup_values_ja q _ Hno), Hfind. reflexivity.
      * intros Huniq. apply List.find_some in Hfind. destruct Hfind as [Hin0 Heq0].
        apply Huniq; [exact Hin0 | apply String.eqb_eq; exact Heq0].
    + exfalso. apply (List.find_none _ _ Hfind) in Hin. simpl in Hin.
      apply String.eqb_neq in Hin. contradiction.
  - intros lang Hlang. unfold get_pokemon_by_name_or_id. fold q.
    apply lookup_values_other; assumption.
Qed.

End FindProps.

Lemma find_is_locale_sensitive_witness :
  (exists e0,
     List.find (fun e' => String.eqb (ascii_lower (e_name_ja e'))
                            (ascii_lower (ascii_strip "  ポリゴンz ")))
       (map snd [("pikachu", pikachu); ("porygon-z", porygon_z)])
     = Some e0 /\
     get_pokemon_by_name_or_id ∅ ascii_lower ascii_strip "  ポリゴンz " "日本語"
       [("pikachu", pikachu); ("porygon-z", porygon_z)]
     = Some (_make_entry ∅ e0 "日本語") /\
     ((forall e', In e' (map snd [("pikachu", pikachu); ("porygon-z", porygon_z)]) ->
         ascii_lower (e_name_ja e') = ascii_lower (ascii_strip "  ポリゴンz ") ->
         e' = porygon_z) ->
      e0 = porygon_z))
  /\
  (forall lang, lang <> "日本語" ->
     get_pokemon_by_name_or_id ∅ ascii_lower ascii_strip "  ポリゴンz " lang
       [("pikachu", pikachu); ("porygon-z", porygon_z)] = None).
Proof.
  apply (find_is_locale_sensitive ∅ ascii_lower ascii_strip "  ポリゴンz "
           [("pikachu", pikachu); ("porygon-z", porygon_z)] porygon_z).
  - simpl. right. left. reflexivity.
  - vm_compute. reflexivity.
  - intros e' [<- | [<- | []]]; split; vm_compute; discriminate.
Defined.

(** ** The entity assembler *)

(** C7.  When the primary record is fetched and the species record is
    absent, the assembled record carries the slug as its display name, a
    null evolution chain and no forms. *)
Theorem fetch_pokemon_without_species (session : session) (pokemon_id : Z)
    (item_map : gmap string string) (data : pokemon_doc) (w w1 w2 : world) :
  fetch_json (pokemon_at session) (POKEAPI_BASE ++ "/pokemon/" ++ pretty pokemon_id) w
  = (Ok (Some data), w1) ->
  fetch_json (species_at session) (p_species_url data) w1 = (Ok None, w2) ->
  fetch_pokemon session pokemon_id item_map w
  = (Ok (Some {| e_id := p_id data;
                 e_name_en := p_name data;
                 e_name_ja := p_name data;
                 e_types := p_types data;
                 e_img := or_str (p_official_artwork data) (p_front_default data);
                 e_chain := None;
                 e_forms := [] |}), w2).
Proof.
  intros Hdata Hspecies. unfold fetch_pokemon, mbind, M_bind.
  rewrite Hdata, Hspecies. reflexivity.
Qed.

Lemma fetch_pokemon_without_species_witness :
  exists w2,
    fetch_pokemon only_pikachu 25 ∅ [] = (Ok (Some pikachu_without_species), w2).
Proof.
  eexists.
  apply (fetch_pokemon_without_species only_pikachu 25 ∅ pikachu_doc []
           [Get "https://pokeapi.co/api/v2/pokemon/25"]).
  - vm_compute. reflexivity.
  - vm_compute. reflexivity.
Defined.

(** When the primary record is absent the entity is absent. *)
Lemma fetch_pokemon_absent (session : session) (pokemon_id : Z)
    (item_map : gmap string string) (w w1 : world) :
  fetch_json (pokemon_at session) (POKEAPI_BASE ++ "/pokemon/" ++ pretty pokemon_id) w
  = (Ok None, w1) ->
  fetch_pokemon session pokemon_id item_map w = (Ok None, w1).
Proof.
  intros Hdata. unfold fetch_pokemon, mbind, M_bind. rewrite Hdata. reflexivity.
Qed.

(** ** The move assembler *)

(** When the primary record is absent the move list is empty. *)
Lemma fetch_pokemon_moves_absent (session : session) (pokemon_name : string)
    (version_map : gmap string string) (w w1 : world) :
  fetch_json (pokemon_at session) (POKEAPI_BASE ++ "/pokemon/" ++ pokemon_name) w
  = (Ok None, w1) ->
  fetch_pokemon_moves session pokemon_name version_map w = (Ok [], w1).
Proof.
  intros Hdata. unfold fetch_pokemon_moves, mbind, M_bind. rewrite Hdata. reflexivity.
Qed.

(** As soon as the detail fetch of a move returns None, the loop raises:
    nothing is recorded for that move or for any other. *)
Lemma fetch_moves_loop_raises (session : session) (pokemon_name : string)
    (version_map : gmap string string) (m : move_ref) (rest : list move_ref)
    (moves_list : list move_row) (w w1 : world) :
  fetch_json (move_at session) (m_url m) w = (Ok None, w1) ->
  fetch_moves_loop session pokemon_name version_map (m :: rest) moves_list w
  = (Raise AttributeError, w1).
Proof.
  intros Hmove. simpl. unfold mbind, M_bind. rewrite Hmove. reflexivity.
Qed.

(** C3 fails on the code.  With the primary record of pikachu fetched and
    the detail fetch of its move thunder-shock absent,
    [fetch_pokemon_moves] raises AttributeError: the move is not recorded
    under its slug. *)
Theorem fetch_pokemon_moves_raises (version_map : gmap string string) :
  fst (fetch_pokemon_moves only_pikachu_by_name "pikachu" version_map [])
  = Raise AttributeError.
Proof. vm_compute. reflexivity. Qed.

(** ** The build-time condition extractor *)

Lemma string_length_append (a s : string) :
  String.length (a ++ s) = (String.length a + String.length s)%nat.
Proof. induction a as [|c a IH]; simpl; [reflexivity | rewrite IH; reflexivity]. Qed.

(** Two texts that end in different suffixes of one length differ. *)
Lemma append_suffix_eq (a b s t : string) :
  String.length s = String.length t -> a ++ s = b ++ t -> s = t.
Proof.
  revert b. induction a as [|c a IH]; intros [|c' b] Hlen Heq.
  - exact Heq.
  - exfalso. apply (f_equal String.length) in Heq.
    rewrite !string_length_append in Heq. simpl in Heq. lia.
  - exfalso. apply (f_equal String.length) in Heq.
    rewrite !string_length_append in Heq. simpl in Heq. lia.
  - change (String c (a ++ s) = String c' (b ++ t)) in Heq.
    injection Heq as _ Heq. apply (IH b Hlen Heq).
Qed.

Lemma truthy_str_append (a s : string) :
  truthy_str s = true -> truthy_str (a ++ s) = true.
Proof.
  destruct a as [|c a]; simpl; [trivial | reflexivity].
Qed.

Section SearchProps.

Variable item_map : gmap string string.
Variable target_name : string.

(** Every text the inner loop returns is non-empty. *)
Lemma detail_condition_truthy (detail : evolution_detail) :
  truthy_str (detail_condition item_map detail) = true.
Proof.
  unfold detail_condition.
  destruct (truthy truthy_str (item detail));
    [apply truthy_str_append; reflexivity|].
  destruct (truthy truthy_int (min_level detail)); [reflexivity|].
  destruct (truthy truthy_str (trigger detail));
    [apply truthy_str_append; reflexivity | reflexivity].
Qed.

(** One step of [search]: only the first child is looked at when what
    comes back from below it is non-empty. *)
Lemma search_step (s : option string) (ds : list evolution_detail)
    (evo : chain_node) (rest : list chain_node) :
  truthy_str (search item_map target_name evo) = true ->
  search item_map target_name (ChainNode s ds (evo :: rest))
  = if is_hit target_name evo
    then hit_condition item_map evo
    else search item_map target_name evo.
Proof.
  intros Htruthy. unfold is_hit, hit_condition. cbn [search evolves_to].
  rewrite Htruthy.
  destruct (bool_decide (species evo = Some target_name));
    destruct (evolution_details evo); reflexivity.
Qed.

(** The text [search] returns is never empty, so [if result] always holds. *)
Lemma search_truthy (node : chain_node) :
  truthy_str (search item_map target_name node) = true.
Proof.
  induction node as [s ds evos IH] using chain_node_nested_ind.
  destruct IH as [|evo rest Hevo _]; [reflexivity|].
  rewrite (search_step s ds evo rest Hevo).
  destruct (is_hit target_name evo); [|exact Hevo].
  unfold hit_condition. destruct (evolution_details evo);
    [reflexivity | apply detail_condition_truthy].
Qed.

(** What [search] computes: the first hit on the path of first children
    decides, and without one the sentinel is returned. *)
Lemma search_first_child_path (node : chain_node) :
  search item_map target_name node
  = match List.find (is_hit target_name) (first_child_path node) with
    | Some evo => hit_condition item_map evo
    | None => "進化条件不明"
    end.
Proof.
  induction node as [s ds evos IH] using chain_node_nested_ind.
  destruct IH as [|evo rest Hevo _]; [reflexivity|].
  rewrite (search_step s ds evo rest (search_truthy evo)).
  cbn [first_child_path evolves_to List.find].
  destruct (is_hit target_name evo); [reflexivity | exact Hevo].
Qed.

(** The nodes on the path of first children are descendants. *)
Lemma first_child_path_descendants (node : chain_node) :
  forall evo, In evo (first_child_path node) -> In evo (descendants node).
Proof.
  induction node as [s ds evos IH] using chain_node_nested_ind.
  destruct IH as [|child rest Hchild _]; intros evo Hin; [contradiction|].
  cbn [first_child_path evolves_to] in Hin. cbn [descendants evolves_to].
  destruct Hin as [<- | Hin]; [left; reflexivity|].
  right. apply in_or_app. left. apply Hchild. exact Hin.
Qed.

(** When no node below the root carries the target slug, the sentinel is
    returned. *)
Lemma search_no_match (node : chain_node) :
  (forall evo, In evo (descendants node) -> species evo <> Some target_name) ->
  search item_map target_name node = "進化条件不明".
Proof.
  intros Hno. rewrite search_first_child_path.
  destruct (List.find (is_hit target_name) (first_child_path node)) as [evo|] eqn:Hfind;
    [|reflexivity].
  apply List.find_some in Hfind. destruct Hfind as [Hin Hhit].
  apply first_child_path_descendants, Hno in Hin.
  unfold is_hit in Hhit. apply andb_prop in Hhit. destruct Hhit as [Hname _].
  apply bool_decide_eq_true in Hname. contradiction.
Qed.

End SearchProps.

Lemma string_append_assoc (a b c : string) : (a ++ b) ++ c = a ++ (b ++ c).
Proof.
  induction a as [|x a IH]; [reflexivity|].
  change (String x ((a ++ b) ++ c) = String x (a ++ (b ++ c))). rewrite IH. reflexivity.
Qed.

(** [extract_form_info] never raises. *)
Lemma extract_form_info_total (session : session) (form_detail : pokemon_doc)
    (item_map : gmap string string) (evolution_chain : option chain_doc)
    (w : world) :
  exists form w',
    extract_form_info session form_detail item_map evolution_chain w = (Ok form, w') /\
    f_name_en form = p_name form_detail /\
    f_evolution_condition form
    = match evolution_chain with
      | Some chain_data =>
          if truthy_chain_doc chain_data
          then extract_evolution_condition_from_chain chain_data
                 (p_name form_detail) item_map
          else ""
      | None => ""
      end.
Proof.
  unfold extract_form_info, mbind, M_bind.
  destruct (truthy_str (p_species_url form_detail)).
  - destruct (fetch_json_total (species_at session) (p_species_url form_detail) w)
      as (r & w' & ->).
    unfold mret, M_ret. eexists _, _. split; [reflexivity|]. split; reflexivity.
  - unfold mret, M_ret. eexists _, _. split; [reflexivity|]. split; reflexivity.
Qed.

(** C8, as amended.  The condition of an extracted form is the empty
    string when the entity has no evolution chain: when the chain is null
    or an empty document.  With a chain it is what
    [extract_evolution_condition_from_chain] returns for the slug of the
    variety: the sentinel when no node below the root carries that slug,
    and the text of the first detail record of the matching node when the
    first match lies on the path of first children. *)
Theorem extract_form_info_condition (session : session) (form_detail : pokemon_doc)
    (item_map : gmap string string) (evolution_chain : option chain_doc)
    (w : world) :
  exists form w',
    extract_form_info session form_detail item_map evolution_chain w = (Ok form, w') /\
    match evolution_chain with
    | None => f_evolution_condition form = ""
    | Some chain_data =>
        if truthy_chain_doc chain_data then
          let root := default empty_node (chain chain_data) in
          f_evolution_condition form
          = extract_evolution_condition_from_chain chain_data (p_name form_detail) item_map
          /\
          ((forall evo, In evo (descendants root) ->
              species evo <> Some (p_name form_detail)) ->
           f_evolution_condition form = "進化条件不明")
          /\
          (forall evo,
             List.find (is_hit (p_name form_detail)) (first_child_path root) = Some evo ->
             f_evolution_condition form = hit_condition item_map evo)
        else f_evolution_condition form = ""
    end.
Proof.
  destruct (extract_form_info_total session form_detail item_map evolution_chain w)
    as (form & w' & Hrun & _ & Hcond).
  exists form, w'. split; [exact Hrun|].
  destruct evolution_chain as [chain_data|]; [|exact Hcond].
  destruct (truthy_chain_doc chain_data); [|exact Hcond].
  cbn zeta. rewrite Hcond. unfold extract_evolution_condition_from_chain.
  split; [reflexivity|]. split.
  - apply search_no_match.
  - intros evo Hfind. rewrite search_first_child_path, Hfind. reflexivity.
Qed.

(** C8 as stated fails: without an evolution chain the condition of the
    form is the empty string, not the sentinel. *)
Lemma extract_form_info_no_chain_counterexample :
  ~ (forall (session : session) (form_detail : pokemon_doc)
            (item_map : gmap string string) (w w' : world) (form : form),
       extract_form_info session form_detail item_map None w = (Ok form, w') ->
       f_evolution_condition form = "進化条件不明").
Proof.
  intros H.
  destruct (extract_form_info_total only_pikachu pikachu_doc ∅ None [])
    as (form & w' & Hrun & _ & Hcond).
  specialize (H only_pikachu pikachu_doc ∅ [] w' form Hrun).
  rewrite Hcond in H. discriminate H.
Qed.

Lemma extract_form_info_condition_witness :
  (exists form w',
     extract_form_info only_pikachu pikachu_doc ∅ None [] = (Ok form, w') /\
     f_evolution_condition form = "")
  /\
  (exists form w',
     extract_form_info only_pikachu pikachu_doc ∅
       (Some {| chain := None; other_keys := [] |}) [] = (Ok form, w') /\
     f_evolution_condition form = "")
  /\
  (exists form w',
     extract_form_info only_pikachu ivysaur_doc ∅ (Some bulbasaur_chain) []
     = (Ok form, w') /\
     f_evolution_condition form = "Lv16で進化")
  /\
  (exists form w',
     extract_form_info only_pikachu pikachu_doc ∅ (Some bulbasaur_chain) []
     = (Ok form, w') /\
     f_evolution_condition form = "進化条件不明").
Proof.
  split; [|split; [|split]].
  - destruct (extract_form_info_condition only_pikachu pikachu_doc ∅ None [])
      as (form & w' & Hrun & Hcond).
    exists form, w'. split; [exact Hrun | exact Hcond].
  - destruct (extract_form_info_condition only_pikachu pikachu_doc ∅
                (Some {| chain := None; other_keys := [] |}) [])
      as (form & w' & Hrun & Hcond).
    exists form, w'. split; [exact Hrun | exact Hcond].
  - destruct (extract_form_info_condition only_pikachu ivysaur_doc ∅
                (Some bulbasaur_chain) [])
      as (form & w' & Hrun & _ & _ & Hhit).
    exists form, w'. split; [exact Hrun|].
    apply (Hhit (ChainNode (Some "ivysaur") [by_level 16]
                   [ChainNode (Some "venusaur") [by_level 32] []])).
    reflexivity.
  - destruct (extract_form_info_condition only_pikachu pikachu_doc ∅
                (Some bulbasaur_chain) [])
      as (form & w' & Hrun & _ & Hnone & _).
    exists form, w'. split; [exact Hrun|].
    apply Hnone. simpl. intros evo [<- | [<- | []]]; discriminate.
Defined.

(** The search gives up after the first child: the sentinel it gets back
    from below vaporeon is a non-empty string, so jolteon, the second
    child of eevee, is never looked at. *)
Lemma search_skips_later_siblings :
  In (ChainNode (Some "jolteon") [by_item "thunder-stone"] [])
     (descendants (default empty_node (chain eevee_chain))) /\
  extract_evolution_condition_from_chain eevee_chain "jolteon" ∅ = "進化条件不明" /\
  extract_evolution_condition_from_chain eevee_chain "vaporeon" ∅ = "water-stoneを使う".
Proof.
  split; [simpl; right; left; reflexivity|].
  split; vm_compute; reflexivity.
Qed.

(** C10, as amended.  The extractor tests the item before the minimum
    level: for the detail record it stops at (the first detail record of
    the first matching node on the path of first children), when that
    record names an item and also carries a minimum level, the cached
    condition is the item-use text and not the level text.  The
    query-layer formatter gives the level-up text for the same record
    when its trigger is level-up, and the item-use text, as the extractor
    does, when its trigger is use-item. *)
Theorem extract_condition_item_before_level (item_map : gmap string string)
    (chain_data : chain_doc) (target_name : string) (evo : chain_node)
    (detail : evolution_detail) (rest : list evolution_detail)
    (itm : string) (lvl : Z) :
  List.find (is_hit target_name)
    (first_child_path (default empty_node (chain chain_data))) = Some evo ->
  evolution_details evo = detail :: rest ->
  item detail = Some itm -> itm <> "" ->
  min_level detail = Some lvl ->
  extract_evolution_condition_from_chain chain_data target_name item_map
  = default itm (item_map !! itm) ++ "を使う"
  /\
  extract_evolution_condition_from_chain chain_data target_name item_map
  <> "Lv" ++ pretty lvl ++ "で進化"
  /\
  (trigger detail = Some "level-up" -> lvl <> 0 ->
   forall item_name_map,
     format_evolution_conditions item_name_map (Some [detail]) "日本語"
     = pretty lvl ++ "レベルで進化")
  /\
  (trigger detail = Some "use-item" ->
   forall item_name_map,
     format_evolution_conditions item_name_map (Some [detail]) "日本語"
     = safe_translate itm item_name_map ++ "を使う").
Proof.
  intros Hfind Hdetails Hitem Hnamed Hlevel.
  assert (Hrun : extract_evolution_condition_from_chain chain_data target_name item_map
                 = default itm (item_map !! itm) ++ "を使う").
  { unfold extract_evolution_condition_from_chain.
    rewrite search_first_child_path, Hfind. unfold hit_condition, detail_condition.
    rewrite Hdetails, Hitem, (truthy_str_Some itm Hnamed). reflexivity. }
  split; [exact Hrun|]. split; [|split].
  - rewrite Hrun, <- string_append_assoc. intros Heq.
    apply append_suffix_eq in Heq; [discriminate Heq | reflexivity].
  - intros Htrig Hnz item_name_map.
    apply (format_level_up item_name_map detail "日本語" lvl Htrig Hlevel Hnz).
  - intros Htrig item_name_map.
    apply (format_use_item item_name_map detail "日本語" itm Htrig Hitem Hnamed).
Qed.

(** C10 as stated fails: the two layers do not have opposite priorities
    for every record that carries both an item and a minimum level.  For
    the use-item record with both fields, placed where the extractor
    finds it, the query-layer formatter gives the item-use text as well,
    not the level-up text. *)
Lemma extract_opposite_priority_counterexample :
  ~ (forall (item_map item_name_map : gmap string string)
            (detail : evolution_detail) (itm : string) (lvl : Z),
       item detail = Some itm -> itm <> "" ->
       min_level detail = Some lvl -> lvl <> 0 ->
       extract_evolution_condition_from_chain
         {| chain := Some (ChainNode (Some "eevee") []
                             [ChainNode (Some "flareon") [detail] []]);
            other_keys := ["id"] |}
         "flareon" item_map
       = default itm (item_map !! itm) ++ "を使う"
       /\
       format_evolution_conditions item_name_map (Some [detail]) "日本語"
       = pretty lvl ++ "レベルで進化").
Proof.
  intros H.
  destruct (H ∅ ∅ item_triggered_with_level "fire-stone" 16
              eq_refl ltac:(discriminate) eq_refl ltac:(lia)) as [_ Hformat].
  vm_compute in Hformat. discriminate Hformat.
Qed.

Lemma extract_condition_item_before_level_witness :
  let detail :=
    {| trigger := Some "level-up"; min_level := Some 16;
       item := Some "fire-stone"; min_happiness := None;
       time_of_day := Some ""; known_move := None |} in
  let chain_data :=
    {| chain := Some (ChainNode (Some "bulbasaur") []
                        [ChainNode (Some "ivysaur") [detail] []]);
       other_keys := ["id"] |} in
  extract_evolution_condition_from_chain chain_data "ivysaur"
    {[ "fire-stone" := "ほのおのいし" ]}
  = "ほのおのいしを使う"
  /\
  extract_evolution_condition_from_chain chain_data "ivysaur"
    {[ "fire-stone" := "ほのおのいし" ]}
  <> "Lv16で進化"
  /\
  (trigger detail = Some "level-up" -> 16 <> 0 ->
   forall item_name_map,
     format_evolution_conditions item_name_map (Some [detail]) "日本語"
     = "16レベルで進化")
  /\
  (trigger detail = Some "use-item" ->
   forall item_name_map,
     format_evolution_conditions item_name_map (Some [detail]) "日本語"
     = safe_translate "fire-stone" item_name_map ++ "を使う").
Proof.
  intros detail chain_data.
  assert (Hlabel : default "fire-stone"
                     (({[ "fire-stone" := "ほのおのいし" ]} : gmap string string)
                        !! "fire-stone") ++ "を使う"
                   = "ほのおのいしを使う") by (vm_compute; reflexivity).
  rewrite <- Hlabel.
  apply (extract_condition_item_before_level {[ "fire-stone" := "ほのおのいし" ]}
           chain_data "ivysaur" (ChainNode (Some "ivysaur") [detail] [])
           detail [] "fire-stone" 16).
  - reflexivity.
  - reflexivity.
  - reflexivity.
  - discriminate.
  - reflexivity.
Defined.

(** ** The cache written by [main] *)

(** A document [fetch_json] returns was served by the endpoint. *)
Lemma fetch_json_attempts_served {D : Type} (ep : endpoint D) (url : string)
    (retries : nat) (range : list nat) :
  forall (w w' : world) (d : D),
    fetch_json_attempts ep url retries range w = (Ok (Some d), w') ->
    exists n, ep url n = Responds 200 (Parsed d).
Proof.
  induction range as [|attempt rest IH]; intros w w' d; simpl.
  - unfold mret, M_ret. discriminate.
  - unfold mbind, M_bind, session_get, print, sleep, emit, mret, M_ret.
    destruct (ep url (requests w)) as [e|status [d'|e]] eqn:Hresp.
    + apply IH.
    + destruct (Z.eqb_spec status 200) as [->|_]; [|discriminate].
      intros H. injection H as -> _. eauto.
    + destruct (status =? 200); [apply IH | discriminate].
Qed.

Lemma fetch_json_served {D : Type} (ep : endpoint D) (url : string)
    (w w' : world) (d : D) :
  fetch_json ep url w = (Ok (Some d), w') ->
  exists n, ep url n = Responds 200 (Parsed d).
Proof. apply fetch_json_attempts_served. Qed.

















(* ===================================================================== *)
(** * Further properties of the query layer *)
(* ===================================================================== *)

Lemma truthy_str_append_l (a b : string) :
  truthy_str a = true -> truthy_str (a ++ b) = true.
Proof. destruct a as [|c a]; [discriminate | reflexivity]. Qed.

Lemma truthy_str_nonempty (s : string) : truthy_str s = true -> s <> "".
Proof. intros H ->. discriminate H. Qed.

Section FormatMore.

Variable item_name_map : gmap string string.

(** The text of one record is never empty. *)
Lemma condition_text_truthy (d : evolution_detail) (lang : string) :
  truthy_str (condition_text item_name_map d lang) = true.
Proof.
  unfold condition_text.
  destruct (String.eqb lang "日本語");
    repeat match goal with
    | |- truthy_str (if ?c then _ else _) = true => destruct c
    end;
    first [ reflexivity | apply truthy_str_append; reflexivity ].
Qed.

Lemma join_truthy (sep text : string) (texts : list string) :
  truthy_str text = true -> truthy_str (join sep (text :: texts)) = true.
Proof.
  intros H. unfold join. simpl. destruct texts; [exact H|].
  apply truthy_str_append_l, H.
Qed.

Lemma format_truthy (details : option (list evolution_detail)) (lang : string) :
  truthy_str (format_evolution_conditions item_name_map details lang) = true.
Proof.
  unfold format_evolution_conditions.
  destruct details as [[|d ds]|];
    try (destruct (String.eqb lang "日本語"); reflexivity).
  cbn [map]. destruct (String.eqb lang "日本語");
    apply join_truthy, condition_text_truthy.
Qed.

(** [format_evolution_conditions] never returns the empty string, so the
    fallback [cond or ...] of [traverse] is taken for the root only. *)
Theorem format_never_empty (details : option (list evolution_detail))
    (lang : string) :
  format_evolution_conditions item_name_map details lang <> "".
Proof. apply truthy_str_nonempty, format_truthy. Qed.

(** Several records are formatted one by one and joined by the separator
    of the locale. *)
Theorem format_joins_records (d : evolution_detail)
    (ds : list evolution_detail) (lang : string) :
  ds <> [] ->
  format_evolution_conditions item_name_map (Some (d :: ds)) lang
  = condition_text item_name_map d lang
    ++ (if String.eqb lang "日本語" then "、" else "; ")
    ++ format_evolution_conditions item_name_map (Some ds) lang.
Proof.
  intros Hds. destruct ds as [|d' ds]; [contradiction|].
  unfold format_evolution_conditions. cbn [map]. unfold join.
  destruct (String.eqb lang "日本語"); reflexivity.
Qed.

End FormatMore.

Lemma format_joins_records_witness :
  format_evolution_conditions ∅ (Some [by_level 16; by_item "fire-stone"]) "English"
  = "Evolves at level 16; Use fire-stone to evolve".
Proof.
  rewrite (format_joins_records ∅ (by_level 16) [by_item "fire-stone"] "English");
    [reflexivity | discriminate].
Defined.

(** A text that ends in [s] is not one that ends in a different [t] of
    the same length. *)
Lemma append_suffix_neq (a b s t : string) :
  String.length s = String.length t -> s <> t -> a ++ s <> b ++ t.
Proof. intros Hlen Hne Heq. apply Hne, (append_suffix_eq a b s t Hlen Heq). Qed.

(** Rule (c) looks at the truth value of the minimum happiness: when
    rules (a) and (b) do not apply, a non-zero value gives the friendship
    text whatever move or time of day the record carries, and a value of
    zero, like a missing one, never gives it. *)
Theorem format_friendship_rule (item_name_map : gmap string string)
    (d : evolution_detail) (lang : string) :
  let friendship :=
    if String.eqb lang "日本語" then "なつき度が高い状態で進化"
    else "High friendship required" in
  (String.eqb (default "" (trigger d)) "level-up" && truthy truthy_int (min_level d) = false ->
   String.eqb (default "" (trigger d)) "use-item" && truthy truthy_str (item d) = false ->
   truthy truthy_int (min_happiness d) = true ->
   format_evolution_conditions item_name_map (Some [d]) lang = friendship)
  /\
  (truthy truthy_int (min_happiness d) = false ->
   format_evolution_conditions item_name_map (Some [d]) lang <> friendship).
Proof.
  cbn zeta. rewrite format_single. unfold condition_text. split.
  - intros -> -> ->. destruct (String.eqb lang "日本語"); reflexivity.
  - intros ->. destruct (String.eqb lang "日本語").
    + destruct (_ && _).
      { change "なつき度が高い状態で進化" with ("なつき度が高" ++ "い状態で進化").
        apply append_suffix_neq; [reflexivity | discriminate]. }
      destruct (_ && _).
      { change "なつき度が高い状態で進化" with ("なつき度が高い状態" ++ "で進化").
        apply append_suffix_neq; [reflexivity | discriminate]. }
      destruct (truthy truthy_str (known_move d)).
      { change "なつき度が高い状態で進化" with ("なつき" ++ "度が高い状態で進化").
        apply append_suffix_neq; [reflexivity | discriminate]. }
      destruct (truthy truthy_str (time_of_day d)); [|discriminate].
      change "なつき度が高い状態で進化" with ("なつき度が高い状態" ++ "で進化").
      apply append_suffix_neq; [reflexivity | discriminate].
    + destruct (_ && _); [discriminate|].
      destruct (_ && _); [discriminate|].
      destruct (truthy truthy_str (known_move d)); [discriminate|].
      destruct (truthy truthy_str (time_of_day d)); discriminate.
Qed.

Lemma format_friendship_rule_witness :
  format_evolution_conditions ∅
    (Some [ {| trigger := Some "level-up"; min_level := None; item := None;
               min_happiness := Some 160; time_of_day := Some "day";
               known_move := None |} ]) "English"
  = "High friendship required"
  /\
  format_evolution_conditions ∅
    (Some [ {| trigger := Some "level-up"; min_level := None; item := None;
               min_happiness := Some 0; time_of_day := Some "day";
               known_move := None |} ]) "English"
  <> "High friendship required".
Proof.
  split.
  - apply (proj1 (format_friendship_rule ∅ _ "English")); reflexivity.
  - apply (proj2 (format_friendship_rule ∅ _ "English")). reflexivity.
Defined.

(** ** The evolution tree, continued *)

(** The item [traverse] appends for a node found in the cache. *)
Definition tree_item_of (type_name_map : gmap string string) (lang name_en : string)
    (e : entry) (cond : string) : tree_item :=
  {| t_name := if String.eqb lang "日本語" then e_name_ja e else e_name_en e;
     t_name_en := name_en;
     t_id := e_id e;
     t_img := e_img e;
     t_types := translate_types (e_types e) lang type_name_map;
     t_condition :=
       if truthy_str cond then cond
       else if String.eqb lang "日本語" then "条件不明"
       else "Unknown condition" |}.

(** The loop over the children, [visit] being the recursive call. *)
Fixpoint each_child (visit : chain_node -> list tree_item -> result (list tree_item))
    (evos : list chain_node) (tree : list tree_item) : result (list tree_item) :=
  match evos with
  | [] => Ok tree
  | evo :: rest =>
      match visit evo tree with
      | Ok tree => each_child visit rest tree
      | Raise e => Raise e
      end
  end.

(** The nodes below the children [evos], in pre-order. *)
Definition below (evos : list chain_node) : list chain_node :=
  flat_map (fun evo => evo :: descendants evo) evos.

(** A cache in which the three members of a line are present, each with
    the chain of the line. *)
Definition bulbasaur_family : gmap string entry :=
  list_to_map
    [ ("bulbasaur", {| e_id := 1; e_name_en := "bulbasaur"; e_name_ja := "フシギダネ";
                        e_types := ["grass"; "poison"]; e_img := None;
                        e_chain := Some bulbasaur_chain; e_forms := [] |});
      ("ivysaur", {| e_id := 2; e_name_en := "ivysaur"; e_name_ja := "フシギソウ";
                      e_types := ["grass"; "poison"]; e_img := None;
                      e_chain := Some bulbasaur_chain; e_forms := [] |});
      ("venusaur", {| e_id := 3; e_name_en := "venusaur"; e_name_ja := "フシギバナ";
                       e_types := ["grass"; "poison"]; e_img := None;
                       e_chain := Some bulbasaur_chain; e_forms := [] |}) ].

Lemma descendants_below (node : chain_node) :
  descendants node = below (evolves_to node).
Proof.
  destruct node as [s ds evos]. cbn [descendants evolves_to]. unfold below.
  induction evos as [|evo rest IH]; [reflexivity|].
  cbn [flat_map]. rewrite IH. reflexivity.
Qed.

Section TreeMore.

Variable item_name_map : gmap string string.
Variable type_name_map : gmap string string.
Variable lang : string.
Variable cache_dict : gmap string entry.

(** [traverse], with its loop written as [each_child]. *)
Lemma traverse_eq (node : chain_node) (cond : string) (tree : list tree_item) :
  traverse item_name_map type_name_map lang cache_dict node cond tree
  = match species node with
    | None => Raise KeyError
    | Some name_en =>
        match cache_dict !! name_en with
        | None => Ok tree
        | Some e =>
            each_child
              (fun evo tree =>
                 traverse item_name_map type_name_map lang cache_dict evo
                   (format_evolution_conditions item_name_map
                      (Some (evolution_details evo)) lang) tree)
              (evolves_to node)
              (tree ++ [tree_item_of type_name_map lang name_en e cond])%list
        end
    end.
Proof.
  destruct node as [s ds evos]. cbn [traverse species evolves_to].
  destruct s as [name_en|]; [|reflexivity].
  destruct (cache_dict !! name_en) as [e|]; [|reflexivity].
  fold (tree_item_of type_name_map lang name_en e cond).
  generalize (tree ++ [tree_item_of type_name_map lang name_en e cond])%list.
  induction evos as [|evo rest IH]; intros acc; [reflexivity|].
  cbn [each_child].
  destruct (traverse item_name_map type_name_map lang cache_dict evo _ acc);
    [apply IH | reflexivity].
Qed.

(** What an item of the tree says about the cache entry of its slug. *)
Definition renders (x : tree_item) : Prop :=
  exists e,
    cache_dict !! t_name_en x = Some e /\
    t_id x = e_id e /\
    t_name x = (if String.eqb lang "日本語" then e_name_ja e else e_name_en e) /\
    t_img x = e_img e /\
    t_types x = translate_types (e_types e) lang type_name_map /\
    t_condition x <> "".

Lemma tree_item_of_renders (name_en : string) (e : entry) (cond : string) :
  cache_dict !! name_en = Some e ->
  renders (tree_item_of type_name_map lang name_en e cond).
Proof.
  intros Hc. exists e. simpl. repeat (split; [first [exact Hc | reflexivity]|]).
  destruct (truthy_str cond) eqn:Hcond; [apply truthy_str_nonempty, Hcond|].
  destruct (String.eqb lang "日本語"); discriminate.
Qed.

Lemma traverse_appends_renders (node : chain_node) :
  forall (cond : string) (tree tree' : list tree_item),
    traverse item_name_map type_name_map lang cache_dict node cond tree = Ok tree' ->
    exists added, tree' = (tree ++ added)%list /\ Forall renders added.
Proof.
  induction node as [s ds evos IH] using chain_node_nested_ind.
  intros cond tree tree'. rewrite traverse_eq. cbn [species evolves_to].
  destruct s as [name_en|]; [|discriminate].
  destruct (cache_dict !! name_en) as [e|] eqn:Hc.
  - pose proof (tree_item_of_renders name_en e cond Hc) as Hhere.
    set (here := tree_item_of type_name_map lang name_en e cond) in *.
    assert (Hloop : forall acc out,
      each_child
        (fun evo tree =>
           traverse item_name_map type_name_map lang cache_dict evo
             (format_evolution_conditions item_name_map
                (Some (evolution_details evo)) lang) tree) evos acc = Ok out ->
      exists added, out = (acc ++ added)%list /\ Forall renders added).
    { induction IH as [|evo rest Hevo _ IHrest]; intros acc out Hrun.
      - inversion Hrun; subst. exists []. rewrite app_nil_r.
        split; [reflexivity | constructor].
      - cbn [each_child] in Hrun.
        destruct (traverse item_name_map type_name_map lang cache_dict evo _ acc)
          as [mid|e'] eqn:Hmid; [|discriminate].
        apply Hevo in Hmid. destruct Hmid as (a1 & -> & Ha1).
        apply IHrest in Hrun. destruct Hrun as (a2 & -> & Ha2).
        exists (a1 ++ a2)%list. rewrite app_assoc. split; [reflexivity|].
        apply Forall_app; split; assumption. }
    intros Hrun. apply Hloop in Hrun. destruct Hrun as (added & -> & Hadded).
    exists (here :: added). rewrite <- app_assoc. split; [reflexivity|].
    constructor; assumption.
  - intros H. inversion H; subst. exists []. rewrite app_nil_r.
    split; [reflexivity | constructor].
Qed.

(** Every item of the tree [get_evolution_tree] returns shows the cache
    entry stored under the item's slug: its ID, its image, its types as
    translated for the locale and its name in the locale; and the
    condition of an item is never empty. *)
Theorem get_evolution_tree_renders_cache (base_en : string)
    (item_map : gmap string string) (tree : list tree_item) :
  get_evolution_tree item_name_map type_name_map base_en lang cache_dict item_map
  = Ok tree ->
  Forall renders tree.
Proof.
  unfold get_evolution_tree.
  destruct (cache_dict !! base_en) as [root|]; [|intros H; inversion H; constructor].
  destruct (e_chain root) as [doc|]; [|discriminate].
  intros H. apply traverse_appends_renders in H.
  destruct H as (added & -> & Hadded). exact Hadded.
Qed.

End TreeMore.

Lemma get_evolution_tree_renders_cache_witness :
  exists tree,
    get_evolution_tree ∅ ∅ "ivysaur" "日本語" bulbasaur_family ∅ = Ok tree /\
    Forall (renders ∅ "日本語" bulbasaur_family) tree.
Proof.
  eexists. split; [vm_compute; reflexivity|].
  apply (get_evolution_tree_renders_cache ∅ ∅ "日本語" bulbasaur_family "ivysaur" ∅).
  vm_compute. reflexivity.
Defined.

Section TreeOrder.

Variable item_name_map : gmap string string.
Variable type_name_map : gmap string string.
Variable lang : string.
Variable cache_dict : gmap string entry.

(** The condition shown for a node other than the root. *)
Definition incoming (evo : chain_node) : string :=
  format_evolution_conditions item_name_map (Some (evolution_details evo)) lang.

Lemma each_child_all_cached (evos : list chain_node) :
  Forall (fun node => forall cond acc,
            (forall n, In n (node :: descendants node) ->
               exists s, species n = Some s /\ is_Some (cache_dict !! s)) ->
            exists L,
              traverse item_name_map type_name_map lang cache_dict node cond acc
              = Ok (acc ++ L)%list /\
              map (fun x => Some (t_name_en x)) L = map species (node :: descendants node) /\
              map t_condition L
              = (if truthy_str cond then cond
                 else if String.eqb lang "日本語" then "条件不明"
                 else "Unknown condition") :: map incoming (descendants node)) evos ->
  forall acc,
    (forall n, In n (below evos) ->
       exists s, species n = Some s /\ is_Some (cache_dict !! s)) ->
    exists L,
      each_child
        (fun evo tree =>
           traverse item_name_map type_name_map lang cache_dict evo (incoming evo) tree)
        evos acc = Ok (acc ++ L)%list /\
      map (fun x => Some (t_name_en x)) L = map species (below evos) /\
      map t_condition L = map incoming (below evos).
Proof.
  induction 1 as [|evo rest Hevo _ IHrest]; intros acc Hall.
  - exists []. rewrite app_nil_r. repeat split.
  - unfold below in *. cbn [flat_map] in *. cbn [each_child].
    destruct (Hevo (incoming evo) acc) as (L1 & -> & Hn1 & Hc1).
    { intros n Hn. apply Hall. apply in_or_app. left. exact Hn. }
    destruct (IHrest (acc ++ L1)%list) as (L2 & -> & Hn2 & Hc2).
    { intros n Hn. apply Hall. apply in_or_app. right. exact Hn. }
    exists (L1 ++ L2)%list. rewrite app_assoc. split; [reflexivity|].
    unfold incoming at 1 in Hc1. rewrite format_truthy in Hc1.
    rewrite !map_app, Hn1, Hn2, Hc1, Hc2. split; reflexivity.
Qed.

Lemma traverse_all_cached (node : chain_node) :
  forall cond acc,
    (forall n, In n (node :: descendants node) ->
       exists s, species n = Some s /\ is_Some (cache_dict !! s)) ->
    exists L,
      traverse item_name_map type_name_map lang cache_dict node cond acc
      = Ok (acc ++ L)%list /\
      map (fun x => Some (t_name_en x)) L = map species (node :: descendants node) /\
      map t_condition L
      = (if truthy_str cond then cond
         else if String.eqb lang "日本語" then "条件不明"
         else "Unknown condition") :: map incoming (descendants node).
Proof.
  induction node as [s ds evos IH] using chain_node_nested_ind.
  intros cond acc Hall. rewrite traverse_eq.
  destruct (Hall _ (or_introl eq_refl)) as (name_en & Hs & [e Hc]).
  rewrite Hs, Hc. cbn [evolves_to].
  destruct (each_child_all_cached evos IH
              (acc ++ [tree_item_of type_name_map lang name_en e cond])%list)
    as (L & HL & Hn & Hcond).
  { intros n Hn. apply Hall. right. rewrite descendants_below. exact Hn. }
  exists (tree_item_of type_name_map lang name_en e cond :: L).
  unfold incoming at 1 in HL. rewrite HL, <- app_assoc. split; [reflexivity|].
  rewrite descendants_below. cbn [evolves_to map]. split.
  - rewrite Hn. f_equal. symmetry. exact Hs.
  - rewrite Hcond. reflexivity.
Qed.

(** When every node of the chain of the base entity is in the cache, the
    tree lists the chain in depth-first pre-order, root first; the root
    carries the "unknown condition" text and every other node the text
    formatted from its own incoming detail records. *)
Theorem get_evolution_tree_preorder (base_en : string)
    (item_map : gmap string string) (root : entry) (doc : chain_doc)
    (node : chain_node) :
  cache_dict !! base_en = Some root ->
  e_chain root = Some doc ->
  chain doc = Some node ->
  (forall n, In n (node :: descendants node) ->
     exists s, species n = Some s /\ is_Some (cache_dict !! s)) ->
  exists tree,
    get_evolution_tree item_name_map type_name_map base_en lang cache_dict item_map
    = Ok tree /\
    map (fun x => Some (t_name_en x)) tree = map species (node :: descendants node) /\
    map t_condition tree
    = (if String.eqb lang "日本語" then "条件不明" else "Unknown condition")
      :: map incoming (descendants node).
Proof.
  intros Hroot Hdoc Hnode Hall. unfold get_evolution_tree.
  rewrite Hroot, Hdoc, Hnode. cbn [default].
  destruct (traverse_all_cached node "" [] Hall) as (L & HL & Hn & Hc).
  exists L. split; [exact HL|]. split; [exact Hn | exact Hc].
Qed.



End TreeOrder.

Lemma get_evolution_tree_preorder_witness :
  exists tree,
    get_evolution_tree ∅ ∅ "bulbasaur" "English" bulbasaur_family ∅ = Ok tree /\
    map (fun x => Some (t_name_en x)) tree
    = [Some "bulbasaur"; Some "ivysaur"; Some "venusaur"] /\
    map t_condition tree
    = ["Unknown condition"; "Evolves at level 16"; "Evolves at level 32"].
Proof.
  eapply (get_evolution_tree_preorder ∅ ∅ "English" bulbasaur_family "bulbasaur" ∅
            _ bulbasaur_chain
            (ChainNode (Some "bulbasaur") []
               [ ChainNode (Some "ivysaur") [by_level 16]
                   [ ChainNode (Some "venusaur") [by_level 32] [] ] ])).
  - vm_compute. reflexivity.
  - reflexivity.
  - reflexivity.
  - intros n [<- | [<- | [<- | []]]]; eexists; (split; [reflexivity|]);
      vm_compute; eauto.
Defined.


(** ** Search by name or ID, continued *)

Section FindMore.

Variable type_name_map : gmap string string.
Variable lower : string -> string.
Variable strip : string -> string.

(** Whether an entity answers the query [q] under the locale [lang]. *)
Definition answers (q lang : string) (e : entry) : Prop :=
  pretty (e_id e) = q \/ lower (e_name_en e) = q \/
  (lang = "日本語" /\ lower (e_name_ja e) = q).

Lemma lookup_values_sound (q lang : string) (values : list entry)
    (d : display_entry) :
  lookup_values type_name_map lower q lang values = Some d ->
  exists e, In e values /\ d = _make_entry type_name_map e lang /\ answers q lang e.
Proof.
  induction values as [|e rest IH]; [discriminate|]. cbn [lookup_values].
  destruct (String.eqb_spec (pretty (e_id e)) q) as [Hid|_].
  - intros H. injection H as <-. exists e. split; [left; reflexivity|].
    split; [reflexivity | left; exact Hid].
  - destruct (String.eqb_spec (lower (e_name_en e)) q) as [Hen|_]; cbn [orb].
    + intros H. injection H as <-. exists e. split; [left; reflexivity|].
      split; [reflexivity | right; left; exact Hen].
    + destruct (String.eqb_spec lang "日本語") as [Hlang|_];
        [destruct (String.eqb_spec (lower (e_name_ja e)) q) as [Hja|_]|]; cbn [andb].
      * intros H. injection H as <-. exists e. split; [left; reflexivity|].
        split; [reflexivity | right; right; split; assumption].
      * intros H. destruct (IH H) as (e' & Hin & Hd & Hans).
        exists e'. split; [right; exact Hin | split; assumption].
      * intros H. destruct (IH H) as (e' & Hin & Hd & Hans).
        exists e'. split; [right; exact Hin | split; assumption].
Qed.

Lemma lookup_values_none (q lang : string) (values : list entry) :
  lookup_values type_name_map lower q lang values = None <->
  forall e, In e values -> ~ answers q lang e.
Proof.
  induction values as [|e rest IH]; [split; [intros _ e [] | reflexivity]|].
  cbn [lookup_values]. unfold answers in *.
  destruct (String.eqb_spec (pretty (e_id e)) q) as [Hid|Hid]; cbn [orb].
  { split; [discriminate|]. intros H. exfalso. apply (H e (or_introl eq_refl)).
    left. exact Hid. }
  destruct (String.eqb_spec (lower (e_name_en e)) q) as [Hen|Hen].
  { split; [discriminate|]. intros H. exfalso. apply (H e (or_introl eq_refl)).
    right. left. exact Hen. }
  destruct (String.eqb_spec lang "日本語") as [Hlang|Hlang]; cbn [andb].
  - destruct (String.eqb_spec (lower (e_name_ja e)) q) as [Hja|Hja].
    { split; [discriminate|]. intros H. exfalso. apply (H e (or_introl eq_refl)).
      right. right. split; assumption. }
    rewrite IH. split.
    + intros H e' [<- | Hin]; [|apply H, Hin]. intros [?|[?|[_ ?]]]; contradiction.
    + intros H e' Hin. apply H. right. exact Hin.
  - rewrite IH. split.
    + intros H e' [<- | Hin]; [|apply H, Hin]. intros [?|[?|[? _]]]; contradiction.
    + intros H e' Hin. apply H. right. exact Hin.
Qed.

(** The search returns the display entry of an entity of the cache that
    answers the query (by its ID, by its slug, or under the Japanese
    locale by its Japanese name, compared in lower case), and it returns
    None exactly when no entity of the cache answers it. *)
Theorem find_sound_and_complete (query lang : string)
    (cache : list (string * entry)) :
  let q := lower (strip query) in
  (forall d,
     get_pokemon_by_name_or_id type_name_map lower strip query lang cache = Some d ->
     exists e, In e (map snd cache) /\ d = _make_entry type_name_map e lang /\
               answers q lang e)
  /\
  (get_pokemon_by_name_or_id type_name_map lower strip query lang cache = None <->
   forall e, In e (map snd cache) -> ~ answers q lang e).
Proof.
  intros q. unfold get_pokemon_by_name_or_id. fold q. split.
  - intros d. apply lookup_values_sound.
  - apply lookup_values_none.
Qed.

Lemma lookup_values_first (q lang : string) (values : list entry) :
  lang <> "日本語" \/ (forall e, In e values -> lower (e_name_ja e) <> q) ->
  lookup_values type_name_map lower q lang values
  = (fun e => _make_entry type_name_map e lang)
      <$> List.find (fun e => String.eqb (pretty (e_id e)) q
                              || String.eqb (lower (e_name_en e)) q) values.
Proof.
  intros Hno. induction values as [|e rest IH]; [reflexivity|].
  cbn [lookup_values List.find].
  destruct (String.eqb (pretty (e_id e)) q || String.eqb (lower (e_name_en e)) q);
    [reflexivity|].
  assert (Hskip : String.eqb lang "日本語" && String.eqb (lower (e_name_ja e)) q = false).
  { destruct Hno as [Hlang | Hja].
    - apply String.eqb_neq in Hlang. rewrite Hlang. reflexivity.
    - specialize (Hja e (or_introl eq_refl)). apply String.eqb_neq in Hja.
      rewrite Hja. apply andb_false_r. }
  rewrite Hskip. apply IH.
  destruct Hno as [Hlang | Hja]; [left; exact Hlang | right].
  intros e' He'. apply Hja. right. exact He'.
Qed.

(** A query by ID or slug finds the same entity under every locale: when
    the locale is not Japanese, or no Japanese name equals the query, the
    result is the first entity in cache order whose ID string or
    lower-cased slug equals the query. *)
Theorem find_by_id_or_slug (query lang : string) (cache : list (string * entry)) :
  lang <> "日本語" \/
    (forall e, In e (map snd cache) -> lower (e_name_ja e) <> lower (strip query)) ->
  get_pokemon_by_name_or_id type_name_map lower strip query lang cache
  = (fun e => _make_entry type_name_map e lang)
      <$> List.find (fun e => String.eqb (pretty (e_id e)) (lower (strip query))
                              || String.eqb (lower (e_name_en e)) (lower (strip query)))
            (map snd cache).
Proof. intros Hno. unfold get_pokemon_by_name_or_id. apply lookup_values_first, Hno. Qed.

End FindMore.

Lemma find_by_id_or_slug_witness :
  get_pokemon_by_name_or_id ∅ ascii_lower ascii_strip " 474 " "日本語"
    [("pikachu", pikachu); ("porygon-z", porygon_z)]
  = Some (_make_entry ∅ porygon_z "日本語").
Proof.
  rewrite (find_by_id_or_slug ∅ ascii_lower ascii_strip " 474 " "日本語").
  - vm_compute. reflexivity.
  - right. intros e [<- | [<- | []]]; vm_compute; discriminate.
Defined.

(* ===================================================================== *)
(** * Further properties of the pipeline *)
(* ===================================================================== *)

(** ** The fetcher, continued *)

(** An endpoint that times out once and then serves [d]. *)
Definition timeout_then_serves {D : Type} (d : D) : endpoint D :=
  fun _ n => if (n <? 1)%nat then GetRaises "Timeout" else Responds 200 (Parsed d).

Section FetchJsonMore.

Context {D : Type}.
Variable ep : endpoint D.
Variable url : string.
Variable retries : nat.

(** A document comes back only as the answer to the first attempt that
    does not end in an exception. *)
Lemma fetch_json_attempts_some (range : list nat) :
  forall (w w' : world) (d : D),
    fetch_json_attempts ep url retries range w = (Ok (Some d), w') ->
    exists k, (k < length range)%nat /\
      (forall j, (j < k)%nat -> raises ep url (requests w + j)) /\
      ep url (requests w + k)%nat = Responds 200 (Parsed d).
Proof.
  induction range as [|attempt rest IH]; intros w w' d.
  - simpl. unfold mret, M_ret. discriminate.
  - destruct (ep url (requests w)) as [e|status body] eqn:Hresp.
    + destruct (attempt_raises ep url retries attempt rest w) as (line & ->).
      { unfold raises. rewrite Hresp. exact I. }
      intros Hrun. apply IH in Hrun. destruct Hrun as (k & Hk & Hall & Hok).
      rewrite requests_app in Hall, Hok. unfold requests at 2 in Hall.
      unfold requests at 2 in Hok. simpl in Hall, Hok.
      exists (S k). split; [simpl; lia|]. split.
      * intros [|j] Hj.
        -- rewrite Nat.add_0_r. unfold raises. rewrite Hresp. exact I.
        -- replace (requests w + S j)%nat with (requests w + 1 + j)%nat by lia.
           apply Hall. lia.
      * replace (requests w + S k)%nat with (requests w + 1 + k)%nat by lia. exact Hok.
    + destruct (Z.eqb_spec status 200) as [->|Hne].
      * destruct body as [d'|e].
        -- simpl. unfold mbind, M_bind, session_get, mret, M_ret. rewrite Hresp. simpl.
           intros H. injection H as -> _. exists 0%nat.
           split; [simpl; lia|]. split; [intros j Hj; lia|].
           rewrite Nat.add_0_r. exact Hresp.
        -- destruct (attempt_raises ep url retries attempt rest w) as (line & ->).
           { unfold raises. rewrite Hresp. reflexivity. }
           intros Hrun. apply IH in Hrun. destruct Hrun as (k & Hk & Hall & Hok).
           rewrite requests_app in Hall, Hok. unfold requests at 2 in Hall.
           unfold requests at 2 in Hok. simpl in Hall, Hok.
           exists (S k). split; [simpl; lia|]. split.
           ++ intros [|j] Hj.
              ** rewrite Nat.add_0_r. unfold raises. rewrite Hresp. reflexivity.
              ** replace (requests w + S j)%nat with (requests w + 1 + j)%nat by lia.
                 apply Hall. lia.
           ++ replace (requests w + S k)%nat with (requests w + 1 + k)%nat by lia.
              exact Hok.
      * simpl. unfold mbind, M_bind, session_get, print, emit, mret, M_ret.
        rewrite Hresp. destruct (Z.eqb_spec status 200); [contradiction|]. discriminate.
Qed.

(** The shape of every run of the loop: some failed attempts, each a
    request and a wait, and then either one last request or nothing. *)
Lemma fetch_json_attempts_trace (range : list nat) :
  forall w, exists r evs,
    fetch_json_attempts ep url retries range w = (Ok r, (w ++ evs)%list) /\
    ((exists k, (k < length range)%nat /\
        without_prints evs = (retry_pattern url k ++ [Get url])%list) \/
     (r = None /\ without_prints evs = retry_pattern url (length range))).
Proof.
  induction range as [|attempt rest IH]; intros w.
  - exists None, []. rewrite app_nil_r. split; [reflexivity|]. right. split; reflexivity.
  - assert (Hretry : forall line,
              exists r evs,
                fetch_json_attempts ep url retries rest
                  (w ++ [Get url; Print line; Sleep 1])%list = (Ok r, (w ++ evs)%list) /\
                ((exists k, (k < length (attempt :: rest))%nat /\
                    without_prints evs = (retry_pattern url k ++ [Get url])%list) \/
                 (r = None /\
                  without_prints evs = retry_pattern url (length (attempt :: rest))))).
    { intros line.
      destruct (IH (w ++ [Get url; Print line; Sleep 1])%list) as (r & evs & Hrun & Hshape).
      exists r, ([Get url; Print line; Sleep 1] ++ evs)%list.
      rewrite app_assoc. split; [exact Hrun|].
      rewrite without_prints_app.
      destruct Hshape as [(k & Hk & Hpat) | [Hr Hpat]]; rewrite Hpat.
      - left. exists (S k). split; [simpl; lia | reflexivity].
      - right. split; [exact Hr | reflexivity]. }
    destruct (ep url (requests w)) as [e|status body] eqn:Hresp.
    + destruct (attempt_raises ep url retries attempt rest w) as (line & ->).
      { unfold raises. rewrite Hresp. exact I. }
      apply Hretry.
    + destruct (Z.eqb_spec status 200) as [->|Hne].
      * destruct body as [d'|e].
        -- exists (Some d'), [Get url]. simpl.
           unfold mbind, M_bind, session_get, mret, M_ret. rewrite Hresp. simpl.
           split; [reflexivity|]. left. exists 0%nat. split; [lia | reflexivity].
        -- destruct (attempt_raises ep url retries attempt rest w) as (line & ->).
           { unfold raises. rewrite Hresp. reflexivity. }
           apply Hretry.
      * eexists None, _. simpl.
        unfold mbind, M_bind, session_get, print, emit, mret, M_ret. rewrite Hresp.
        destruct (Z.eqb_spec status 200); [contradiction|].
        rewrite <- app_assoc. split; [reflexivity|].
        left. exists 0%nat. split; [simpl; lia | reflexivity].
Qed.

End FetchJsonMore.

(** [fetch_json] returns the document [d] exactly when, within its three
    attempts, the first attempt that does not end in an exception is
    answered with status 200 and [d]. *)
Theorem fetch_json_returns_first_answer {D : Type} (ep : endpoint D)
    (url : string) (w : world) (d : D) :
  (exists w', fetch_json ep url w = (Ok (Some d), w')) <->
  (exists k, (k < 3)%nat /\
     (forall j, (j < k)%nat -> raises ep url (requests w + j)) /\
     ep url (requests w + k)%nat = Responds 200 (Parsed d)).
Proof.
  split.
  - intros (w' & Hrun). apply (fetch_json_attempts_some ep url 3 (seq 0 3) w w' d Hrun).
  - intros (k & Hk & Hall & Hok).
    destruct (fetch_json_success ep url w k d Hk Hall Hok) as (evs & Hrun & _).
    eauto.
Qed.

(** [fetch_json] never raises, and what it does is between one and three
    requests, all to the given URL, with a wait of one second after each
    request that ended in an exception, and nothing else but printing. *)
Theorem fetch_json_trace {D : Type} (ep : endpoint D) (url : string) (w : world) :
  exists r evs,
    fetch_json ep url w = (Ok r, (w ++ evs)%list) /\
    ((exists k, (k < 3)%nat /\
        without_prints evs = (retry_pattern url k ++ [Get url])%list) \/
     (r = None /\ without_prints evs = retry_pattern url 3)).
Proof. apply (fetch_json_attempts_trace ep url 3 (seq 0 3) w). Qed.

Lemma fetch_json_returns_first_answer_witness :
  exists w',
    fetch_json (timeout_then_serves pikachu_doc)
      "https://pokeapi.co/api/v2/pokemon/25" [] = (Ok (Some pikachu_doc), w').
Proof.
  apply (proj2 (fetch_json_returns_first_answer (timeout_then_serves pikachu_doc)
                  "https://pokeapi.co/api/v2/pokemon/25" [] pikachu_doc)).
  exists 1%nat. split; [lia|]. split; [|reflexivity].
  intros j Hj. assert (j = 0)%nat as -> by lia. exact I.
Defined.

(** ** The entity assembler, continued *)

(** What holds of a form attached to an entity whose evolution chain is
    [evolution_chain]: its condition is empty when the chain is null or
    an empty document, and is the non-empty text of the chain search
    otherwise; and a mega form has a label. *)
Definition form_invariant (item_map : gmap string string)
    (evolution_chain : option chain_doc) (f : form) : Prop :=
  match evolution_chain with
  | Some chain_data =>
      if truthy_chain_doc chain_data
      then f_evolution_condition f
           = extract_evolution_condition_from_chain chain_data (f_name_en f) item_map /\
           f_evolution_condition f <> ""
      else f_evolution_condition f = ""
  | None => f_evolution_condition f = ""
  end /\
  (f_is_mega f = true -> f_form_label f <> "").

(** [species_data] is a record whose "evolution_chain" is null: the case
    in which [.get("evolution_chain", {}).get("url")] is evaluated on
    None. *)
Definition null_evolution_chain (species_data : option species_doc) : bool :=
  match species_data with
  | Some species_data =>
      match s_evolution_chain species_data with
      | Null => true
      | _ => false
      end
  | None => false
  end.

Lemma extract_form_info_invariant (session : session) (form_detail : pokemon_doc)
    (item_map : gmap string string) (evolution_chain : option chain_doc)
    (w : world) :
  exists form w',
    extract_form_info session form_detail item_map evolution_chain w = (Ok form, w') /\
    form_invariant item_map evolution_chain form.
Proof.
  assert (Hlabel : forall label,
            p_is_mega form_detail = true ->
            (if p_is_mega form_detail && negb (truthy_str label)
             then "メガのすがた" else label) <> "").
  { intros label ->. simpl. destruct (truthy_str label) eqn:Hl; simpl.
    - apply truthy_str_nonempty, Hl.
    - discriminate. }
  assert (Hcond : forall chain_data name,
            extract_evolution_condition_from_chain chain_data name item_map <> "").
  { intros chain_data name. apply truthy_str_nonempty, search_truthy. }
  assert (Hinv : forall label,
            form_invariant item_map evolution_chain
              {| f_name_en := p_name form_detail;
                 f_name_ja := label;
                 f_img := or_str (p_official_artwork form_detail)
                                 (p_front_default form_detail);
                 f_form_label := "";
                 f_is_mega := false;
                 f_evolution_condition :=
                   match evolution_chain with
                   | Some chain_data =>
                       if truthy_chain_doc chain_data
                       then extract_evolution_condition_from_chain chain_data
                              (p_name form_detail) item_map
                       else ""
                   | None => ""
                   end |}).
  { intros label. unfold form_invariant. cbn. split; [|discriminate].
    destruct evolution_chain as [chain_data|]; [|reflexivity].
    destruct (truthy_chain_doc chain_data); [|reflexivity].
    split; [reflexivity | exact (Hcond chain_data (p_name form_detail))]. }
  unfold extract_form_info, mbind, M_bind.
  destruct (truthy_str (p_species_url form_detail)).
  - destruct (fetch_json_total (species_at session) (p_species_url form_detail) w)
      as (r & w' & ->).
    unfold mret, M_ret. eexists _, _. split; [reflexivity|].
    split; [exact (proj1 (Hinv "")) | exact (Hlabel _)].
  - unfold mret, M_ret. eexists _, _. split; [reflexivity|].
    split; [exact (proj1 (Hinv "")) | exact (Hlabel "")].
Qed.

Lemma fetch_varieties_invariant (session : session) (item_map : gmap string string)
    (evolution_chain : option chain_doc) (varieties : list string) :
  forall (forms_data : list form) (w : world),
    Forall (form_invariant item_map evolution_chain) forms_data ->
    exists forms w',
      fetch_varieties session item_map evolution_chain varieties forms_data w
      = (Ok forms, w') /\
      Forall (form_invariant item_map evolution_chain) forms /\
      (length forms <= length forms_data + length varieties)%nat.
Proof.
  induction varieties as [|form_url rest IH]; intros forms_data w Hacc; simpl.
  - unfold mret, M_ret. eexists _, _. split; [reflexivity|]. split; [exact Hacc | lia].
  - unfold mbind, M_bind.
    destruct (fetch_json_total (pokemon_at session) form_url w) as ([fd|] & w1 & ->).
    + destruct (extract_form_info_invariant session fd item_map evolution_chain w1)
        as (form & w2 & -> & Hform).
      destruct (IH (forms_data ++ [form])%list w2) as (forms & w3 & -> & Hall & Hlen).
      { apply Forall_app. split; [exact Hacc | constructor; [exact Hform | constructor]]. }
      eexists _, _. split; [reflexivity|]. split; [exact Hall|].
      rewrite length_app in Hlen. simpl in Hlen. lia.
    + destruct (IH forms_data w1 Hacc) as (forms & w3 & -> & Hall & Hlen).
      eexists _, _. split; [reflexivity|]. split; [exact Hall | lia].
Qed.

(** Everything [fetch_pokemon] does, told by what the primary fetch and
    the species fetch returned. *)
Lemma fetch_pokemon_cases (session : session) (pokemon_id : Z)
    (item_map : gmap string string) (w : world) :
  exists data w1,
    fetch_json (pokemon_at session) (POKEAPI_BASE ++ "/pokemon/" ++ pretty pokemon_id) w
    = (Ok data, w1) /\
    match data with
    | None => fetch_pokemon session pokemon_id item_map w = (Ok None, w1)
    | Some data =>
        exists species_data w2,
          fetch_json (species_at session) (p_species_url data) w1
          = (Ok species_data, w2) /\
          if null_evolution_chain species_data
          then fetch_pokemon session pokemon_id item_map w = (Raise AttributeError, w2)
          else
            exists e w',
              fetch_pokemon session pokemon_id item_map w = (Ok (Some e), w') /\
              e_id e = p_id data /\ e_name_en e = p_name data /\
              e_types e = p_types data /\
              e_img e = or_str (p_official_artwork data) (p_front_default data) /\
              (e_name_ja e = "" -> e_name_en e = "") /\
              (species_data = None -> e_chain e = None /\ e_forms e = [] /\ w' = w2) /\
              Forall (form_invariant item_map (e_chain e)) (e_forms e)
    end.
Proof.
  unfold fetch_pokemon, mbind, M_bind.
  destruct (fetch_json_total (pokemon_at session)
              (POKEAPI_BASE ++ "/pokemon/" ++ pretty pokemon_id) w)
    as (data & w1 & Hdata). rewrite Hdata. exists data, w1.
  split; [reflexivity|].
  destruct data as [data|]; [|reflexivity].
  assert (Hname : forall name_ja : option string,
            (if truthy truthy_str name_ja then str_str name_ja else p_name data) = "" ->
            p_name data = "").
  { intros [s|]; simpl; [|trivial].
    destruct (truthy_str s) eqn:Hs; [|trivial].
    intros ->. discriminate Hs. }
  destruct (fetch_json_total (species_at session) (p_species_url data) w1)
    as (species_data & w2 & Hsd). rewrite Hsd. exists species_data, w2.
  split; [reflexivity|].
  destruct species_data as [sd|]; cbn [null_evolution_chain].
  - assert (Hchain : forall evolution_chain_url : option string,
              exists r w3,
                (if truthy truthy_str evolution_chain_url
                 then fetch_json (chain_at session) (str_str evolution_chain_url)
                 else mret None) w2 = (Ok r, w3)).
    { intros evolution_chain_url. destruct (truthy truthy_str evolution_chain_url);
        [apply fetch_json_total | unfold mret, M_ret; eauto]. }
    destruct (s_evolution_chain sd) as [| |evolution_chain_url].
    + unfold mret at 1, M_ret at 1.
      destruct (Hchain None) as (evolution_chain & w3 & ->).
      destruct (fetch_varieties_invariant session item_map evolution_chain
                  (s_varieties sd) [] w3) as (forms & w4 & -> & Hforms & _);
        [constructor|].
      unfold mret, M_ret. eexists _, _. split; [reflexivity|]. cbn.
      repeat (split; [reflexivity|]).
      split; [apply Hname|]. split; [discriminate | exact Hforms].
    + reflexivity.
    + unfold mret at 1, M_ret at 1.
      destruct (Hchain evolution_chain_url) as (evolution_chain & w3 & ->).
      destruct (fetch_varieties_invariant session item_map evolution_chain
                  (s_varieties sd) [] w3) as (forms & w4 & -> & Hforms & _);
        [constructor|].
      unfold mret, M_ret. eexists _, _. split; [reflexivity|]. cbn.
      repeat (split; [reflexivity|]).
      split; [apply Hname|]. split; [discriminate | exact Hforms].
  - unfold mret, M_ret. eexists _, _. split; [reflexivity|]. cbn.
    repeat (split; [reflexivity|]).
    split; [trivial|]. split; [intros _; repeat split | constructor].
Qed.

(** A provider that serves ivysaur: its primary record, its species
    record with one variety, and the chain of its line. *)
Definition ivysaur_species : species_doc :=
  {| s_names := [ {| ln_name := "Ivysaur"; ln_language := "en" |};
                  {| ln_name := "フシギソウ"; ln_language := "ja-Hrkt" |} ];
     s_form_names := [];
     s_evolution_chain := Present (Some "https://pokeapi.co/api/v2/evolution-chain/1/");
     s_varieties := ["https://pokeapi.co/api/v2/pokemon/2/"] |}.

Definition serving_ivysaur : session :=
  {| pokemon_at := fun _ _ => Responds 200 (Parsed ivysaur_doc);
     species_at := fun _ _ => Responds 200 (Parsed ivysaur_species);
     chain_at := fun _ _ => Responds 200 (Parsed bulbasaur_chain);
     move_at := always_down |}.




(** The forms of every entity [fetch_pokemon] assembles agree with its
    chain: their condition is empty when the chain is null or an empty
    document, and is the non-empty result of the chain search for the
    form's slug otherwise; and a form flagged as mega has a non-empty
    label. *)
Theorem fetch_pokemon_forms_invariant (session : session) (pokemon_id : Z)
    (item_map : gmap string string) (w w' : world) (e : entry) :
  fetch_pokemon session pokemon_id item_map w = (Ok (Some e), w') ->
  Forall (form_invariant item_map (e_chain e)) (e_forms e).
Proof.
  intros Hrun.
  destruct (fetch_pokemon_cases session pokemon_id item_map w)
    as (data & w1 & _ & Hcases).
  destruct data as [data|]; [|rewrite Hrun in Hcases; discriminate].
  destruct Hcases as (species_data & w2 & _ & Hcases).
  destruct (null_evolution_chain species_data);
    [rewrite Hrun in Hcases; discriminate|].
  destruct Hcases as (e' & w'' & Hrun' & _ & _ & _ & _ & _ & _ & Hforms).
  rewrite Hrun in Hrun'. injection Hrun' as <- _. exact Hforms.
Qed.

Lemma fetch_pokemon_forms_invariant_witness :
  exists e w',
    fetch_pokemon serving_ivysaur 2 ∅ [] = (Ok (Some e), w') /\
    length (e_forms e) = 1%nat /\
    map f_evolution_condition (e_forms e) = ["Lv16で進化"] /\
    Forall (form_invariant ∅ (e_chain e)) (e_forms e).
Proof.
  eexists _, _. split; [vm_compute; reflexivity|]. split; [reflexivity|].
  split; [vm_compute; reflexivity|].
  eapply (fetch_pokemon_forms_invariant serving_ivysaur 2 ∅ []).
  vm_compute. reflexivity.
Defined.

(** ** The move assembler, continued *)

(** The columns of a row that come from the primary record and the
    version map. *)
Definition row_key (r : move_row) : string * string * string * Z * string :=
  (r_pokemon r, r_move r, r_version r, r_level r, r_method r).

(** One key per declared version-group detail of every move, in the order
    of the primary record. *)
Definition declared_keys (pokemon_name : string) (version_map : gmap string string)
    (moves : list move_ref) : list (string * string * string * Z * string) :=
  flat_map
    (fun m =>
       map (fun vd =>
              (pokemon_name, m_name m,
               default (vd_version_group vd) (version_map !! vd_version_group vd),
               vd_level_learned_at vd, vd_move_learn_method vd))
           (m_version_group_details m))
    moves.

(** The detail records the loop over the moves fetched: [move_data] is
    what [fetch_json] returned for the URL of the move of the same
    position, one move after the other from [w] to [w']. *)
Fixpoint details_fetched (session : session) (moves : list move_ref)
    (fetched : list move_doc) (w w' : world) : Prop :=
  match moves, fetched with
  | [], [] => w' = w
  | m :: moves, move_data :: fetched =>
      exists w1,
        fetch_json (move_at session) (m_url m) w = (Ok (Some move_data), w1) /\
        details_fetched session moves fetched w1 w'
  | _, _ => False
  end.

(** The rows recorded for moves and the detail records fetched for them:
    the Japanese name of a row is the ja-Hrkt name in the detail record
    of its own move, or the slug of the move when that record has none. *)
Definition move_rows (pokemon_name : string) (version_map : gmap string string)
    (fetched : list (move_ref * move_doc)) : list move_row :=
  flat_map
    (fun p =>
       version_rows pokemon_name (m_name (fst p))
         (next_ja_hrkt (mv_names (snd p)) (m_name (fst p)))
         version_map (m_version_group_details (fst p)))
    fetched.

(** A provider that serves pikachu and the detail record of its move. *)
Definition serving_pikachu_moves : session :=
  {| pokemon_at := fun _ _ => Responds 200 (Parsed pikachu_doc);
     species_at := always_down;
     chain_at := always_down;
     move_at := fun _ _ =>
       Responds 200 (Parsed {| mv_names :=
         [ {| ln_name := "Thunder Shock"; ln_language := "en" |};
           {| ln_name := "でんきショック"; ln_language := "ja-Hrkt" |} ] |}) |}.

(** An endpoint that never serves a document returns None on every fetch. *)
Lemma fetch_json_never_served {D : Type} (ep : endpoint D) (url : string) (w : world) :
  (forall u n d, ep u n <> Responds 200 (Parsed d)) ->
  exists w', fetch_json ep url w = (Ok None, w').
Proof.
  intros Hnever. destruct (fetch_json_total ep url w) as ([d|] & w' & Hrun); [|eauto].
  apply fetch_json_served in Hrun. destruct Hrun as (n & Hserved).
  exfalso. exact (Hnever url n d Hserved).
Qed.

Lemma version_rows_keys (pokemon_name move_name_en move_name_ja : string)
    (version_map : gmap string string) (details : list version_detail) :
  map row_key (version_rows pokemon_name move_name_en move_name_ja version_map details)
  = map (fun vd =>
           (pokemon_name, move_name_en,
            default (vd_version_group vd) (version_map !! vd_version_group vd),
            vd_level_learned_at vd, vd_move_learn_method vd)) details.
Proof. unfold version_rows. rewrite List.map_map. reflexivity. Qed.

Lemma details_fetched_length (session : session) (moves : list move_ref) :
  forall (fetched : list move_doc) (w w' : world),
    details_fetched session moves fetched w w' -> length fetched = length moves.
Proof.
  induction moves as [|m rest IH]; intros [|move_data fetched] w w'; simpl;
    try contradiction; [reflexivity|].
  intros (w1 & _ & Hrest). f_equal. exact (IH _ _ _ Hrest).
Qed.

Lemma details_fetched_served (session : session) (moves : list move_ref) :
  forall (fetched : list move_doc) (w w' : world),
    details_fetched session moves fetched w w' ->
    Forall2 (fun m move_data =>
               exists n, move_at session (m_url m) n = Responds 200 (Parsed move_data))
            moves fetched.
Proof.
  induction moves as [|m rest IH]; intros [|move_data fetched] w w'; simpl;
    try contradiction; [constructor|].
  intros (w1 & Hdoc & Hrest). constructor; [|exact (IH _ _ _ Hrest)].
  exact (fetch_json_served _ _ _ _ _ Hdoc).
Qed.

Lemma move_rows_keys (pokemon_name : string) (version_map : gmap string string)
    (moves : list move_ref) :
  forall fetched : list move_doc,
    length fetched = length moves ->
    map row_key (move_rows pokemon_name version_map (combine moves fetched))
    = declared_keys pokemon_name version_map moves.
Proof.
  induction moves as [|m rest IH]; intros [|move_data fetched] Hlen;
    try discriminate; [reflexivity|].
  cbn [combine move_rows declared_keys flat_map fst snd].
  rewrite map_app, version_rows_keys. f_equal.
  apply IH. injection Hlen as Hlen. exact Hlen.
Qed.

(** The loop returns exactly when every move's detail record is fetched,
    and then it has appended the rows of those records. *)
Lemma fetch_moves_loop_rows (session : session) (pokemon_name : string)
    (version_map : gmap string string) (moves : list move_ref) :
  forall (moves_list rows : list move_row) (w w' : world),
    fetch_moves_loop session pokemon_name version_map moves moves_list w = (Ok rows, w')
    <->
    exists fetched,
      details_fetched session moves fetched w w' /\
      rows = (moves_list ++ move_rows pokemon_name version_map (combine moves fetched))%list.
Proof.
  induction moves as [|m rest IH]; intros moves_list rows w w'.
  - simpl. unfold mret, M_ret. split.
    + intros H. injection H as <- <-. exists []. rewrite app_nil_r. split; reflexivity.
    + intros ([|move_data fetched] & Hfetched & ->); [|contradiction].
      simpl in Hfetched. subst w'. cbn. rewrite app_nil_r. reflexivity.
  - cbn [fetch_moves_loop]. unfold mbind, M_bind. split.
    + destruct (fetch_json_total (move_at session) (m_url m) w) as ([doc|] & w1 & Hdoc);
        rewrite Hdoc; [|unfold raise; discriminate].
      unfold mret, M_ret. intros Hrun. apply IH in Hrun.
      destruct Hrun as (fetched & Hfetched & ->).
      exists (doc :: fetched). split.
      * cbn [details_fetched]. exists w1. split; assumption.
      * cbn [combine move_rows flat_map fst snd]. rewrite <- app_assoc. reflexivity.
    + intros ([|move_data fetched] & Hfetched & ->); [contradiction|].
      cbn [details_fetched] in Hfetched. destruct Hfetched as (w1 & Hdoc & Hrest).
      rewrite Hdoc. unfold mret, M_ret. apply IH. exists fetched.
      split; [exact Hrest|].
      cbn [combine move_rows flat_map fst snd]. rewrite <- app_assoc. reflexivity.
Qed.

(** [fetch_pokemon_moves], once the primary record is fetched, returns
    exactly when the detail record of every move of that record is
    fetched, each from the URL of its own move and one after the other;
    the rows it returns are then, for each move in order, one row per
    declared version-group detail, carrying the requested entity slug,
    the move slug, the ja-Hrkt name in the detail record fetched for that
    very move (the move slug when the record has none), the version label
    (the slug when the version map has no entry for it), the level and
    the method. *)
Theorem fetch_pokemon_moves_rows (session : session) (pokemon_name : string)
    (version_map : gmap string string) (w w1 w' : world) (data : pokemon_doc)
    (rows : list move_row) :
  fetch_json (pokemon_at session) (POKEAPI_BASE ++ "/pokemon/" ++ pokemon_name) w
  = (Ok (Some data), w1) ->
  (fetch_pokemon_moves session pokemon_name version_map w = (Ok rows, w') <->
   exists fetched,
     details_fetched session (p_moves data) fetched w1 w' /\
     rows = move_rows pokemon_name version_map (combine (p_moves data) fetched)) /\
  (fetch_pokemon_moves session pokemon_name version_map w = (Ok rows, w') ->
   map row_key rows = declared_keys pokemon_name version_map (p_moves data) /\
   exists fetched,
     Forall2 (fun m move_data =>
                exists n, move_at session (m_url m) n = Responds 200 (Parsed move_data))
             (p_moves data) fetched /\
     rows = move_rows pokemon_name version_map (combine (p_moves data) fetched)).
Proof.
  intros Hdata. unfold fetch_pokemon_moves, mbind, M_bind. rewrite Hdata.
  split; [apply (fetch_moves_loop_rows session pokemon_name version_map (p_moves data) [])|].
  intros Hrun. apply fetch_moves_loop_rows in Hrun.
  destruct Hrun as (fetched & Hfetched & ->). cbn [app]. split.
  - apply move_rows_keys, (details_fetched_length _ _ _ _ _ Hfetched).
  - exists fetched. split; [|reflexivity].
    exact (details_fetched_served _ _ _ _ _ Hfetched).
Qed.

Lemma fetch_pokemon_moves_rows_witness :
  exists rows w',
    fetch_pokemon_moves serving_pikachu_moves "pikachu"
      {[ "red-blue" := "赤・緑・青" ]} [] = (Ok rows, w') /\
    rows = [ {| r_pokemon := "pikachu"; r_move := "thunder-shock";
                r_move_ja := "でんきショック"; r_version := "赤・緑・青";
                r_level := 1; r_method := "level-up" |} ] /\
    map row_key rows = declared_keys "pikachu" {[ "red-blue" := "赤・緑・青" ]}
                         (p_moves pikachu_doc).
Proof.
  destruct (fetch_pokemon_moves serving_pikachu_moves "pikachu"
              {[ "red-blue" := "赤・緑・青" ]} []) as [r w'] eqn:Hrun.
  assert (Hdata : fetch_json (pokemon_at serving_pikachu_moves)
                    (POKEAPI_BASE ++ "/pokemon/" ++ "pikachu") []
                  = (Ok (Some pikachu_doc), [Get "https://pokeapi.co/api/v2/pokemon/pikachu"]))
    by (vm_compute; reflexivity).
  assert (Hr : r = Ok [ {| r_pokemon := "pikachu"; r_move := "thunder-shock";
                           r_move_ja := "でんきショック"; r_version := "赤・緑・青";
                           r_level := 1; r_method := "level-up" |} ]).
  { vm_compute in Hrun. injection Hrun as <- _. reflexivity. }
  subst r. eexists _, w'. split; [reflexivity|]. split; [reflexivity|].
  exact (proj1 (proj2 (fetch_pokemon_moves_rows serving_pikachu_moves "pikachu"
                         {[ "red-blue" := "赤・緑・青" ]} [] _ w' pikachu_doc _ Hdata)
                  Hrun)).
Defined.

(** When the primary record lists a move and no detail record of a move
    can be fetched, [fetch_pokemon_moves] raises AttributeError and
    returns no rows. *)
Theorem fetch_pokemon_moves_needs_details (session : session)
    (pokemon_name : string) (version_map : gmap string string)
    (w w1 : world) (data : pokemon_doc) :
  fetch_json (pokemon_at session) (POKEAPI_BASE ++ "/pokemon/" ++ pokemon_name) w
  = (Ok (Some data), w1) ->
  p_moves data <> [] ->
  (forall u n d, move_at session u n <> Responds 200 (Parsed d)) ->
  exists w',
    fetch_pokemon_moves session pokemon_name version_map w = (Raise AttributeError, w').
Proof.
  intros Hdata Hmoves Hnever. unfold fetch_pokemon_moves, mbind, M_bind. rewrite Hdata.
  destruct (p_moves data) as [|m rest]; [contradiction|].
  destruct (fetch_json_never_served (move_at session) (m_url m) w1 Hnever) as (w' & Hnone).
  exists w'. apply fetch_moves_loop_raises, Hnone.
Qed.

Lemma fetch_pokemon_moves_needs_details_witness :
  exists w',
    fetch_pokemon_moves only_pikachu_by_name "pikachu" ∅ [] = (Raise AttributeError, w').
Proof.
  apply (fetch_pokemon_moves_needs_details only_pikachu_by_name "pikachu" ∅ []
           [Get "https://pokeapi.co/api/v2/pokemon/pikachu"] pikachu_doc).
  - vm_compute. reflexivity.
  - discriminate.
  - intros u n d. discriminate.
Defined.

(** ** [main], continued *)

Lemma fetch_pokemon_moves_owner (session : session) (pokemon_name : string)
    (version_map : gmap string string) (w w' : world) (rows : list move_row) :
  fetch_pokemon_moves session pokemon_name version_map w = (Ok rows, w') ->
  Forall (fun r => r_pokemon r = pokemon_name) rows.
Proof.
  unfold fetch_pokemon_moves, mbind, M_bind.
  destruct (fetch_json (pokemon_at session) _ w) as [[[data|]|e] w1].
  - intros Hrun. apply fetch_moves_loop_rows in Hrun.
    destruct Hrun as (fetched & _ & ->). cbn [app].
    apply List.Forall_forall. intros r Hr.
    unfold move_rows in Hr. apply in_flat_map in Hr.
    destruct Hr as (p & _ & Hr). unfold version_rows in Hr.
    apply in_map_iff in Hr. destruct Hr as (vd & <- & _). reflexivity.
  - unfold mret, M_ret. intros H. injection H as <- _. constructor.
  - discriminate.
Qed.

Lemma main_moves_owner (session : session) (version_map : gmap string string)
    (pokemon_list_sorted : list entry) :
  forall (moves_all rows : list move_row) (w w' : world),
    main_moves session version_map pokemon_list_sorted moves_all w = (Ok rows, w') ->
    exists added,
      rows = (moves_all ++ added)%list /\
      Forall (fun r => exists p, In p pokemon_list_sorted /\ r_pokemon r = e_name_en p)
             added.
Proof.
  induction pokemon_list_sorted as [|p rest IH]; intros moves_all rows w w'.
  - simpl. unfold mret, M_ret. intros H. injection H as <- _.
    exists []. rewrite app_nil_r. split; [reflexivity | constructor].
  - simpl. unfold mbind, M_bind.
    destruct (fetch_pokemon_moves session (e_name_en p) version_map w)
      as [[moves|e] w1] eqn:Hmoves; [|discriminate].
    unfold print, emit. intros Hrun. apply IH in Hrun.
    destruct Hrun as (added & -> & Hadded).
    apply fetch_pokemon_moves_owner in Hmoves.
    exists (moves ++ added)%list. rewrite app_assoc. split; [reflexivity|].
    apply Forall_app. split.
    + eapply List.Forall_impl; [|exact Hmoves].
      intros r Hr. exists p. split; [left; reflexivity | exact Hr].
    + eapply List.Forall_impl; [|exact Hadded].
      intros r (q & Hq & Hr). exists q. split; [right; exact Hq | exact Hr].
Qed.

(** Every row of the move table [main] builds is owned by an entity of
    the collection it was built from: the slug in its first column is the
    slug of one of those entities. *)
Theorem main_moves_reference_entities (session : session)
    (version_map : gmap string string) (pokemon_list_sorted : list entry)
    (w w' : world) (moves_all : list move_row) :
  main_moves session version_map pokemon_list_sorted [] w = (Ok moves_all, w') ->
  Forall (fun r => exists p, In p pokemon_list_sorted /\ r_pokemon r = e_name_en p)
         moves_all.
Proof.
  intros Hrun. apply main_moves_owner in Hrun.
  destruct Hrun as (added & -> & Hadded). exact Hadded.
Qed.

Lemma main_moves_reference_entities_witness :
  exists moves_all w',
    main_moves serving_pikachu_moves ∅ [pikachu; pikachu_without_species] [] []
    = (Ok moves_all, w') /\
    length moves_all = 2%nat /\
    Forall (fun r => exists p, In p [pikachu; pikachu_without_species] /\
                               r_pokemon r = e_name_en p) moves_all.
Proof.
  eexists _, _. split; [vm_compute; reflexivity|]. split; [reflexivity|].
  eapply (main_moves_reference_entities serving_pikachu_moves ∅
            [pikachu; pikachu_without_species] []).
  vm_compute. reflexivity.
Defined.

(** When the provider serves no primary record at all, [main] does not
    fail: the collection it writes is empty. *)
Theorem main_cache_empty_when_unavailable (view : Z -> session)
    (start : Z -> world) (item_map : gmap string string) (order : list Z) :
  (forall i u n d, pokemon_at (view i) u n <> Responds 200 (Parsed d)) ->
  main_pokemon_cache view start item_map order = Ok [].
Proof.
  intros Hnever. unfold main_pokemon_cache.
  assert (Hgather : forall acc,
            gather (map (task_result view start item_map) order) acc = Ok acc).
  { induction order as [|i rest IH]; intros acc; [reflexivity|].
    cbn [map gather]. unfold task_result at 1.
    destruct (fetch_json_never_served (pokemon_at (view i))
                (POKEAPI_BASE ++ "/pokemon/" ++ pretty i) (start i) (Hnever i))
      as (w1 & Hnone).
    rewrite (fetch_pokemon_absent (view i) i item_map (start i) w1 Hnone).
    cbn [fst]. apply IH. }
  rewrite Hgather. reflexivity.
Qed.

Lemma main_cache_empty_when_unavailable_witness :
  main_pokemon_cache
    (fun _ => {| pokemon_at := always_down; species_at := always_down;
                 chain_at := always_down; move_at := always_down |})
    (fun _ => []) ∅ pokemon_ids
  = Ok [].
Proof.
  apply main_cache_empty_when_unavailable. intros i u n d. discriminate.
Defined.

(** ** The item map *)

(** The label stored for an item comes from a served detail record of
    that item: the ja-Hrkt name, or the slug when there is none. *)
Definition label_served (session : item_session) (name_en name_ja : string) : Prop :=
  exists url n doc,
    item_at session url n = Responds 200 (Parsed doc) /\
    i_name doc = name_en /\
    name_ja = next_ja_hrkt (i_names doc) name_en.

Lemma fetch_items_loop_sound (session : item_session) (results : list string) :
  forall (item_map : gmap string string) (w : world),
    (forall k v, item_map !! k = Some v -> label_served session k v) ->
    exists m w',
      fetch_items_loop session results item_map w = (Ok m, w') /\
      forall k v, m !! k = Some v -> label_served session k v.
Proof.
  induction results as [|item_url rest IH]; intros item_map w Hsound; simpl.
  - unfold mret, M_ret. eauto.
  - unfold mbind, M_bind.
    destruct (fetch_json_total (item_at session) item_url w) as ([doc|] & w1 & Hdoc);
      rewrite Hdoc; [|apply IH, Hsound].
    apply IH. intros k v. rewrite lookup_insert.
    destruct (decide (i_name doc = k)) as [Hk|_]; [|apply Hsound].
    intros Hv. injection Hv as <-.
    apply fetch_json_served in Hdoc. destruct Hdoc as (n & Hserved).
    exists item_url, n, doc. subst k. repeat split. exact Hserved.
Qed.

(** [fetch_all_items] never raises; every entry of the map it returns
    maps the slug of a served item record to that record's ja-Hrkt name
    or, without one, to the slug; and when the listing cannot be fetched
    the map is empty. *)
Theorem fetch_all_items_sound (session : item_session) (w : world) :
  exists m w',
    fetch_all_items session w = (Ok m, w') /\
    (forall k v, m !! k = Some v -> label_served session k v) /\
    ((forall u n d, item_list_at session u n <> Responds 200 (Parsed d)) -> m = ∅).
Proof.
  unfold fetch_all_items, mbind, M_bind.
  destruct (fetch_json_total (item_list_at session)
              (POKEAPI_BASE ++ "/item?limit=10000") w) as ([data|] & w1 & Hdata);
    rewrite Hdata.
  - destruct (fetch_items_loop_sound session (il_results data) ∅ w1)
      as (m & w' & Hrun & Hsound).
    { intros k v Hk. rewrite lookup_empty in Hk. discriminate. }
    exists m, w'. split; [exact Hrun|]. split; [exact Hsound|].
    intros Hnever. exfalso. apply fetch_json_served in Hdata.
    destruct Hdata as (n & Hserved). exact (Hnever _ n data Hserved).
  - unfold mret, M_ret. exists ∅, w1. split; [reflexivity|].
    split; [|reflexivity]. intros k v Hk. rewrite lookup_empty in Hk. discriminate.
Qed.

(** ** Dicts built from lists *)

Lemma fold_insert_lookup {A V : Type} (key : A -> string) (val : A -> V)
    (l : list A) (k : string) :
  fold_left (fun (m : gmap string V) a => <[key a := val a]> m) l ∅ !! k
  = val <$> List.find (fun a => String.eqb (key a) k) (rev l).
Proof.
  induction l as [|a l IH] using rev_ind; [apply lookup_empty|].
  rewrite fold_left_app, rev_unit. cbn [fold_left List.find].
  rewrite lookup_insert.
  destruct (String.eqb_spec (key a) k) as [Hk|Hk].
  - rewrite decide_True by exact Hk. reflexivity.
  - rewrite decide_False by exact Hk. exact IH.
Qed.

Lemma find_unique_key {A : Type} (key : A -> string) (l : list A) (a : A) :
  List.NoDup (map key l) -> In a l ->
  List.find (fun x => String.eqb (key x) (key a)) l = Some a.
Proof.
  induction l as [|x l IH]; intros Hnd Hin; [contradiction|].
  inversion Hnd as [|? ? Hx Hnd']; subst. cbn [List.find].
  destruct Hin as [<- | Hin].
  - rewrite String.eqb_refl. reflexivity.
  - destruct (String.eqb_spec (key x) (key a)) as [Heq|_]; [|apply IH; assumption].
    exfalso. apply Hx. rewrite Heq. apply in_map, Hin.
Qed.

(** The move-name map holds, for a move slug, the Japanese name of the
    last row of the table with that slug, and nothing for a slug that no
    row carries. *)
Theorem move_names_lookup (moves_all : list move_row) (slug : string) :
  move_names moves_all !! slug
  = r_move_ja <$> List.find (fun r => String.eqb (r_move r) slug) (rev moves_all).
Proof. apply fold_insert_lookup. Qed.

(** The dict [load_pokemon_data] builds holds, for a slug, the last record
    of the cache file with that slug, and nothing for a slug that no
    record carries; so the record found under a key has that key as its
    slug. *)
Theorem load_pokemon_data_lookup (raw_data : list entry) (slug : string) :
  load_pokemon_data raw_data !! slug
  = List.find (fun e => String.eqb (e_name_en e) slug) (rev raw_data)
  /\
  (forall e, load_pokemon_data raw_data !! slug = Some e ->
     e_name_en e = slug /\ In e raw_data).
Proof.
  assert (Hfind : load_pokemon_data raw_data !! slug
                  = List.find (fun e => String.eqb (e_name_en e) slug) (rev raw_data)).
  { unfold load_pokemon_data.
    rewrite (fold_insert_lookup e_name_en (fun e => e) raw_data slug).
    destruct (List.find _ _); reflexivity. }
  split; [exact Hfind|].
  intros e He. rewrite Hfind in He. apply List.find_some in He.
  destruct He as [Hin Heq]. split; [apply String.eqb_eq, Heq|].
  apply in_rev. exact Hin.
Qed.

(** What the application does after a search: in a cache file whose
    slugs do not repeat, the entry the search returns names, in its
    "name_en", a key of the dict, and the record under that key is the
    one the entry was made from; the tree builder is therefore called on
    a base it finds. *)
Theorem search_result_is_a_key (type_name_map : gmap string string)
    (lower strip : string -> string) (query lang : string)
    (raw_data : list entry) (d : display_entry) :
  List.NoDup (map e_name_en raw_data) ->
  get_pokemon_by_name_or_id type_name_map lower strip query lang
    (map (fun e => (e_name_en e, e)) raw_data) = Some d ->
  exists e,
    load_pokemon_data raw_data !! d_name_en d = Some e /\
    d = _make_entry type_name_map e lang.
Proof.
  intros Hnd Hfound. unfold get_pokemon_by_name_or_id in Hfound.
  apply lookup_values_sound in Hfound. destruct Hfound as (e & Hin & -> & _).
  rewrite List.map_map, List.map_id in Hin.
  exists e. split; [|reflexivity]. cbn [d_name_en _make_entry].
  unfold load_pokemon_data.
  rewrite (fold_insert_lookup e_name_en (fun e => e) raw_data (e_name_en e)).
  rewrite (find_unique_key e_name_en (rev raw_data) e).
  - reflexivity.
  - rewrite List.map_rev. apply List.NoDup_rev, Hnd.
  - apply -> in_rev. exact Hin.
Qed.

Lemma search_result_is_a_key_witness :
  exists e,
    load_pokemon_data [pikachu; porygon_z]
      !! d_name_en (_make_entry ∅ porygon_z "English") = Some e /\
    _make_entry ∅ porygon_z "English" = _make_entry ∅ e "English".
Proof.
  apply (search_result_is_a_key ∅ ascii_lower ascii_strip "Porygon-Z" "English"
           [pikachu; porygon_z]).
  - repeat constructor; simpl; intuition discriminate.
  - vm_compute. reflexivity.
Defined.

(** ** The build-time condition extractor, continued *)

(** What [search] reads of a node. *)
Definition node_facts (evo : chain_node) : option string * list evolution_detail :=
  (species evo, evolution_details evo).

Lemma find_hit_by_facts (item_map : gmap string string) (target_name : string)
    (path1 : list chain_node) :
  forall path2,
    map node_facts path1 = map node_facts path2 ->
    match List.find (is_hit target_name) path1 with
    | Some evo => hit_condition item_map evo
    | None => "進化条件不明"
    end
    = match List.find (is_hit target_name) path2 with
      | Some evo => hit_condition item_map evo
      | None => "進化条件不明"
      end.
Proof.
  induction path1 as [|a path1 IH]; intros [|b path2] Hmap; try discriminate;
    [reflexivity|].
  cbn [map] in Hmap.
  pose proof (f_equal (fun l => match l with x :: _ => fst x | [] => None end) Hmap) as Hs.
  pose proof (f_equal (fun l => match l with x :: _ => snd x | [] => [] end) Hmap) as Hd.
  pose proof (f_equal (@tail _) Hmap) as Hrest.
  cbn in Hs, Hd, Hrest.
  assert (Hhit : is_hit target_name a = is_hit target_name b)
    by (unfold is_hit; rewrite Hs, Hd; reflexivity).
  assert (Hcond : hit_condition item_map a = hit_condition item_map b)
    by (unfold hit_condition; rewrite Hd; reflexivity).
  cbn [List.find]. rewrite Hhit.
  destruct (is_hit target_name b); [exact Hcond | apply IH, Hrest].
Qed.

(** The extractor reads the chain along the path of first children only:
    two chain documents whose first-child paths carry the same slugs and
    detail records give the same condition for every target, whatever
    else the trees hold. *)
Theorem extract_reads_first_children (chain_data1 chain_data2 : chain_doc)
    (target_name : string) (item_map : gmap string string) :
  map node_facts (first_child_path (default empty_node (chain chain_data1)))
  = map node_facts (first_child_path (default empty_node (chain chain_data2))) ->
  extract_evolution_condition_from_chain chain_data1 target_name item_map
  = extract_evolution_condition_from_chain chain_data2 target_name item_map.
Proof.
  intros Hpath. unfold extract_evolution_condition_from_chain.
  rewrite !search_first_child_path. apply find_hit_by_facts, Hpath.
Qed.

Lemma extract_reads_first_children_witness :
  extract_evolution_condition_from_chain eevee_chain "flareon" ∅
  = extract_evolution_condition_from_chain
      {| chain := Some (ChainNode (Some "eevee") []
                          [ChainNode (Some "vaporeon") [by_item "water-stone"] []]);
         other_keys := ["id"] |}
      "flareon" ∅.
Proof.
  apply (extract_reads_first_children eevee_chain _ "flareon" ∅). reflexivity.
Defined.
